(** * The mouse control facade of the micromouse simulator (sim::MouseInterface)

    A shallow embedding of [src/sim/MouseInterface.cpp].  The facade is a
    C++ class whose methods act on three collaborators (the kinematic
    mouse, the maze graphic, the process-wide simulation state) and on
    the console.  Every method becomes a computation in a small
    state-and-termination monad over a [World] record that holds those
    collaborators.

    Numbers.  Lengths, angles, speeds and durations are [double] in the
    source; they are exact rationals ([Q]) here, so rounding is outside
    the model.  Cell coordinates and button numbers are C++ [int]; they
    are [Z] here, and every arithmetic step on them ([y + 1], [x - 1],
    [getHeight() - 1]) is taken on values bounded by the maze size.

    Time.  The motion loops poll a pose that another thread (the
    kinematic integrator) advances.  The embedding is sequential: the
    rest of the simulator acts on the shared state exactly at the calls
    of [SimUtilities::sleep], through the parameter [simulate]. *)

From Stdlib Require Import ZArith QArith Qround String Ascii List Lia Lqa DecimalString.
From stdpp Require Import gmap strings.
Import ListNotations.

Local Open Scope string_scope.
Local Open Scope Z_scope.

(** ** Data model *)

(** [enum class Direction] *)
Inductive Direction := NORTH | EAST | SOUTH | WEST.

#[global] Instance Direction_eq_dec : EqDecision Direction.
Proof. solve_decision. Defined.

Definition Direction_to_nat (d : Direction) : nat :=
  match d with NORTH => 0 | EAST => 1 | SOUTH => 2 | WEST => 3 end%nat.

Definition Direction_of_nat (n : nat) : Direction :=
  match n with O => NORTH | 1 => EAST | 2 => SOUTH | _ => WEST end%nat.

#[global] Instance Direction_countable : Countable Direction.
Proof.
  refine (inj_countable' Direction_to_nat Direction_of_nat _).
  intros []; reflexivity.
Defined.

(** Modelled from the spec: [InterfaceType.h] is not part of the sources
    at hand.  The interface type is DISCRETE or CONTINUOUS once it has
    been declared, and neither before. *)
Inductive InterfaceType := UNINITIALIZED | DISCRETE | CONTINUOUS.

#[global] Instance InterfaceType_eq_dec : EqDecision InterfaceType.
Proof. solve_decision. Defined.

(** A colour of [Color.h], by the ordinal of its enumerator. *)
Definition Color : Type := N.

(** *** Units *)

Definition Qltb (a b : Q) : bool := negb (Qle_bool b a).

(** [std::max] on [double] *)
Definition std_max (a b : Q) : Q := if Qltb a b then b else a.

(** Modelled from the spec: the angle classes ([units/Degrees.h],
    [units/Radians.h]) are not part of the sources at hand.  An angle is
    kept in degrees, in the interval [0, 360): headings wrap around at
    360 degrees, and the comparisons of the turning loops are on the
    wrapped values. *)
Definition Angle : Type := Q.

Definition wrap360 (d : Q) : Q := d - 360 * inject_Z (Qfloor (d / 360)).

Definition Degrees (d : Q) : Angle := wrap360 d.

(** [Radians(0.0)] *)
Definition Radians_0 : Angle := Degrees 0.

Definition Angle_add (a b : Angle) : Angle := Degrees (a + b).
Definition Angle_sub (a b : Angle) : Angle := Degrees (a - b).
Definition Angle_lt (a b : Angle) : bool := Qltb a b.

(** [Cartesian]: a pair of [Meters]. *)
Definition Cartesian : Type := (Q * Q)%type.
Definition getX (c : Cartesian) : Q := fst c.
Definition getY (c : Cartesian) : Q := snd c.
Definition Cartesian_add (a b : Cartesian) : Cartesian :=
  (getX a + getX b, getY a + getY b)%Q.

(** [Milliseconds(ms)] as a duration in seconds. *)
Definition Milliseconds (ms : Q) : Q := (ms / 1000)%Q.

(** *** Configuration: the parameters read through [P()] *)
Record Param := {
  wallLength : Q;
  wallWidth : Q;
  declareBothWallHalves : bool;
  algorithmControlsTileFog : bool;
  discreteInterfaceDeclareWallOnRead : bool;
  printLateSensorReads : bool;
  minSleepDuration : Q;
  frameRate : Q;
  tileBaseColor : string
}.

(** *** The maze: read-only *)
Record Maze := {
  getWidth : Z;
  getHeight : Z;
  (** [getTile(x, y)->isWall(direction)] *)
  tileIsWall : Z -> Z -> Direction -> bool
}.

(** *** The kinematic mouse *)
Record Sensor := {
  sensorReading : Q;
  (** seconds *)
  sensorReadDuration : Q
}.

Record Mouse := {
  m_initialTranslation : Cartesian;
  m_initialRotation : Angle;
  m_currentTranslation : Cartesian;
  m_currentRotation : Angle;
  (** the wheel speeds last commanded, in radians per second *)
  m_leftWheelSpeed : Q;
  m_rightWheelSpeed : Q;
  m_sensors : gmap string Sensor;
  (** the gyro reading, in degrees per second *)
  m_gyro : Q
}.

(** *** The process-wide simulation state read through [S()] *)
Record State := {
  interfaceType : InterfaceType;
  paused : bool;
  crashed : bool;
  simSpeed : Q;
  m_inputButtons : gmap Z bool
}.

(** *** The maze graphic: the overlays the annotation calls write *)
Record MazeGraphic := {
  g_tileColor : gmap (Z * Z) Color;
  g_declaredWalls : gmap (Z * Z * Direction) bool;
  g_tileFogginess : gmap (Z * Z) bool;
  g_tileText : gmap (Z * Z) (list string)
}.

(** *** What the facade does that is visible outside it *)
Inductive Event :=
| CmdSetWheelSpeeds (left right : Q)
| CmdTeleport (translation : Cartesian) (rotation : Angle)
| EvSleep (seconds : Q).

Record World := {
  mouse : Mouse;
  sim : State;
  graphic : MazeGraphic;
  m_tilesWithColor : gset (Z * Z);
  (** lines written by [SimUtilities::print], oldest first *)
  printed : list string;
  (** lines written by [Logging::simLogger()->warn], oldest first *)
  logged : list string;
  (** commands sent to the mouse and sleeps, oldest first *)
  trace : list Event
}.

Definition with_mouse (m : Mouse) (w : World) : World :=
  {| mouse := m; sim := sim w; graphic := graphic w;
     m_tilesWithColor := m_tilesWithColor w; printed := printed w;
     logged := logged w; trace := trace w |}.

Definition with_sim (s : State) (w : World) : World :=
  {| mouse := mouse w; sim := s; graphic := graphic w;
     m_tilesWithColor := m_tilesWithColor w; printed := printed w;
     logged := logged w; trace := trace w |}.

Definition with_graphic (g : MazeGraphic) (w : World) : World :=
  {| mouse := mouse w; sim := sim w; graphic := g;
     m_tilesWithColor := m_tilesWithColor w; printed := printed w;
     logged := logged w; trace := trace w |}.

Definition with_tilesWithColor (t : gset (Z * Z)) (w : World) : World :=
  {| mouse := mouse w; sim := sim w; graphic := graphic w;
     m_tilesWithColor := t; printed := printed w;
     logged := logged w; trace := trace w |}.

Definition with_printed (p : list string) (w : World) : World :=
  {| mouse := mouse w; sim := sim w; graphic := graphic w;
     m_tilesWithColor := m_tilesWithColor w; printed := p;
     logged := logged w; trace := trace w |}.

Definition with_logged (l : list string) (w : World) : World :=
  {| mouse := mouse w; sim := sim w; graphic := graphic w;
     m_tilesWithColor := m_tilesWithColor w; printed := printed w;
     logged := l; trace := trace w |}.

Definition with_trace (t : list Event) (w : World) : World :=
  {| mouse := mouse w; sim := sim w; graphic := graphic w;
     m_tilesWithColor := m_tilesWithColor w; printed := printed w;
     logged := logged w; trace := t |}.

(** ** The monad of facade calls *)

(** How a call can end other than by returning. *)
Inductive Stop :=
| QUIT            (** [SimUtilities::quit()] ended the run *)
| ASSERT_FAILED   (** an [ASSERT] did not hold *)
| OUT_OF_RANGE.   (** [std::map::at] on a missing key *)

Inductive Outcome (A : Type) :=
| Returned (a : A) (w : World)
| Stopped (s : Stop) (w : World)
| OutOfFuel.

Arguments Returned {A} a w.
Arguments Stopped {A} s w.
Arguments OutOfFuel {A}.

Definition M (A : Type) : Type := World -> Outcome A.

Definition ret {A} (a : A) : M A := fun w => Returned a w.

Definition bind {A B} (c : M A) (k : A -> M B) : M B := fun w =>
  match c w with
  | Returned a w' => k a w'
  | Stopped s w' => Stopped s w'
  | OutOfFuel => OutOfFuel
  end.

Declare Scope facade_scope.
Delimit Scope facade_scope with facade.
Notation "x <- c ;; k" := (bind c (fun x => k))
  (at level 100, c at next level, right associativity) : facade_scope.
Notation "c ;; k" := (bind c (fun _ => k))
  (at level 100, right associativity) : facade_scope.
Local Open Scope facade_scope.

Definition stop {A} (s : Stop) : M A := fun w => Stopped s w.
Definition get {A} (f : World -> A) : M A := fun w => Returned (f w) w.
Definition modify (f : World -> World) : M unit := fun w => Returned tt (f w).

(** [while (cond) body]: the loop gives up after [fuel] iterations. *)
Fixpoint while (fuel : nat) (cond : World -> bool) (body : M unit) : M unit :=
  fun w =>
    if cond w then
      match fuel with
      | O => OutOfFuel
      | S n => bind body (fun _ => while n cond body) w
      end
    else Returned tt w.

(** ** The collaborators *)

(** [std::to_string] on an [int] *)
Definition to_string (z : Z) : string := NilZero.string_of_int (Z.to_int z).

(** the one-character string the source splices into a message *)
Definition of_char (c : ascii) : string := String c EmptyString.

(** [SimUtilities::print] *)
Definition print (line : string) : M unit :=
  modify (fun w => with_printed (printed w ++ [line]) w).

(** [Logging::simLogger()->warn] *)
Definition warn (line : string) : M unit :=
  modify (fun w => with_logged (logged w ++ [line]) w).

(** [SimUtilities::quit]: the run ends here. *)
Definition quit {A} : M A := stop QUIT.

(** [ASSERT(condition)] *)
Definition ASSERT (condition : bool) : M unit :=
  if condition then ret tt else stop ASSERT_FAILED.

(** [SimUtilities::mapContains] and [std::map::at] *)
Definition mapContains `{Countable K} {V} (m : gmap K V) (k : K) : bool :=
  bool_decide (is_Some (m !! k)).

Definition at_ `{Countable K} {V} (m : gmap K V) (k : K) : M V :=
  match m !! k with
  | Some v => ret v
  | None => stop OUT_OF_RANGE
  end.

Module MouseModel.

(** Modelled from the spec: [Mouse.cpp] is not part of the sources at
    hand.  The cell of a position is its coordinates floor-divided by
    the tile length; the heading is the nearest of the four cardinal
    directions, with the angles that [moveForward] assigns to them
    (NORTH 0, WEST 90, SOUTH 180, EAST 270) and wrap-around at 360. *)
Definition getDiscretizedTranslation (tileLength : Q) (m : Mouse) : Z * Z :=
  (Qfloor (getX (m_currentTranslation m) / tileLength),
   Qfloor (getY (m_currentTranslation m) / tileLength)).

Definition getDiscretizedRotation (m : Mouse) : Direction :=
  let dir := Qfloor (Degrees (m_currentRotation m + 45) / 90) in
  if dir <=? 0 then NORTH
  else if dir =? 1 then WEST
  else if dir =? 2 then SOUTH
  else EAST.

(** Modelled from the spec: [Mouse::teleport] puts the mouse at the
    given pose; the wheel speeds are not touched. *)
Definition teleport (translation : Cartesian) (rotation : Angle) (m : Mouse) : Mouse :=
  {| m_initialTranslation := m_initialTranslation m;
   m_initialRotation := m_initialRotation m;
     m_currentTranslation := translation;
     m_currentRotation := rotation;
     m_leftWheelSpeed := m_leftWheelSpeed m;
     m_rightWheelSpeed := m_rightWheelSpeed m;
     m_sensors := m_sensors m;
     m_gyro := m_gyro m |}.

(** Modelled from the spec: [Mouse::setWheelSpeeds] records the
    commanded speeds for the integrator. *)
Definition setWheelSpeeds (left right : Q) (m : Mouse) : Mouse :=
  {| m_initialTranslation := m_initialTranslation m;
   m_initialRotation := m_initialRotation m;
     m_currentTranslation := m_currentTranslation m;
     m_currentRotation := m_currentRotation m;
     m_leftWheelSpeed := left;
     m_rightWheelSpeed := right;
     m_sensors := m_sensors m;
     m_gyro := m_gyro m |}.

End MouseModel.

Module StateModel.

(** Modelled from the spec: [State.cpp] is not part of the sources at
    hand.  The crashed flag is only ever raised; a button that has no
    entry counts as not pressed. *)
Definition setCrashed (s : State) : State :=
  {| interfaceType := interfaceType s; paused := paused s; crashed := true;
     simSpeed := simSpeed s; m_inputButtons := m_inputButtons s |}.

Definition inputButtonWasPressed (inputButton : Z) (s : State) : bool :=
  default false (m_inputButtons s !! inputButton).

Definition setInputButtonWasPressed (inputButton : Z) (pressed : bool) (s : State) : State :=
  {| interfaceType := interfaceType s; paused := paused s; crashed := crashed s;
     simSpeed := simSpeed s;
     m_inputButtons := <[inputButton := pressed]> (m_inputButtons s) |}.

End StateModel.

Module GraphicModel.

(** Modelled from the spec: [MazeGraphic.cpp] is not part of the
    sources at hand.  Each overlay is a finite map from the cell (and
    the direction, for walls) to what was last written there. *)
Definition setTileColor (x y : Z) (c : Color) (g : MazeGraphic) : MazeGraphic :=
  {| g_tileColor := <[(x, y) := c]> (g_tileColor g);
     g_declaredWalls := g_declaredWalls g;
     g_tileFogginess := g_tileFogginess g;
     g_tileText := g_tileText g |}.

Definition declareWall (x y : Z) (d : Direction) (isWall : bool) (g : MazeGraphic) : MazeGraphic :=
  {| g_tileColor := g_tileColor g;
     g_declaredWalls := <[(x, y, d) := isWall]> (g_declaredWalls g);
     g_tileFogginess := g_tileFogginess g;
     g_tileText := g_tileText g |}.

Definition undeclareWall (x y : Z) (d : Direction) (g : MazeGraphic) : MazeGraphic :=
  {| g_tileColor := g_tileColor g;
     g_declaredWalls := delete (x, y, d) (g_declaredWalls g);
     g_tileFogginess := g_tileFogginess g;
     g_tileText := g_tileText g |}.

Definition setTileFogginess (x y : Z) (foggy : bool) (g : MazeGraphic) : MazeGraphic :=
  {| g_tileColor := g_tileColor g;
     g_declaredWalls := g_declaredWalls g;
     g_tileFogginess := <[(x, y) := foggy]> (g_tileFogginess g);
     g_tileText := g_tileText g |}.

Definition setTileText (x y : Z) (text : list string) (g : MazeGraphic) : MazeGraphic :=
  {| g_tileColor := g_tileColor g;
     g_declaredWalls := g_declaredWalls g;
     g_tileFogginess := g_tileFogginess g;
     g_tileText := <[(x, y) := text]> (g_tileText g) |}.

End GraphicModel.

(** ** A concrete simulation

    A three-by-three maze with walls on its border only, the standard
    tile geometry (walls 168 mm long and 12 mm wide), and an integrator
    that drives straight along the current heading when the wheels turn
    against each other and spins in place when they turn alike.  It is
    the setting in which the statements below are run on examples. *)
Module Demo.

Definition P : Param :=
  {| wallLength := 168 # 1000;
     wallWidth := 12 # 1000;
     declareBothWallHalves := true;
     algorithmControlsTileFog := true;
     discreteInterfaceDeclareWallOnRead := true;
     printLateSensorReads := false;
     minSleepDuration := 100;
     frameRate := 60;
     tileBaseColor := "BLACK" |}.

Definition maze : Maze :=
  {| getWidth := 3;
     getHeight := 3;
     tileIsWall := fun x y d =>
       match d with
       | NORTH => y =? 2
       | EAST => x =? 2
       | SOUTH => y =? 0
       | WEST => x =? 0
       end |}.

Definition CHAR_TO_COLOR : gmap ascii Color :=
  {[ "k"%char := 0%N; "b"%char := 1%N; "g"%char := 2%N; "r"%char := 3%N ]}.

Definition STRING_TO_COLOR : gmap string Color :=
  {[ "BLACK" := 0%N; "BLUE" := 1%N; "GREEN" := 2%N; "RED" := 3%N ]}.

Definition CHAR_TO_DIRECTION : gmap ascii Direction :=
  {[ "n"%char := NORTH; "e"%char := EAST; "s"%char := SOUTH; "w"%char := WEST ]}.

Definition DIRECTION_TO_CHAR : gmap Direction ascii :=
  {[ NORTH := "n"%char; EAST := "e"%char; SOUTH := "s"%char; WEST := "w"%char ]}.

(** One sleep of the calling thread: the mouse advances 3 cm along its
    heading per radian per second of forward wheel speed and second
    slept, and turns 30 degrees per radian per second of spin. *)
Definition simulate (seconds : Q) (ms : Mouse * State) : Mouse * State :=
  let m := fst ms in
  let forward := ((m_rightWheelSpeed m - m_leftWheelSpeed m) / 2 * (3 # 100) * seconds)%Q in
  let spin := ((m_rightWheelSpeed m + m_leftWheelSpeed m) / 2 * 30 * seconds)%Q in
  let step :=
    match MouseModel.getDiscretizedRotation m with
    | NORTH => (0, forward)
    | EAST => (forward, 0)
    | SOUTH => (0, - forward)
    | WEST => (- forward, 0)
    end%Q in
  (MouseModel.teleport
     (Qred (getX (m_currentTranslation m) + getX step),
      Qred (getY (m_currentTranslation m) + getY step))
     (Qred (Degrees (m_currentRotation m - spin))) m,
   snd ms).

Definition readElapsed (name : string) (w : World) : Q := 1 # 1000.

Definition to_string_double (q : Q) : string :=
  to_string (Qnum q) ++ "/" ++ to_string (Zpos (Qden q)).

(** The mouse at the centre of cell [(x, y)], turned by [rotation]. *)
Definition mouseAt (x y : Z) (rotation : Q) : Mouse :=
  {| m_initialTranslation := (9 # 100, 9 # 100);
   m_initialRotation := 90%Q;
     m_currentTranslation :=
       (Qred ((18 # 100) * inject_Z x + (9 # 100)),
        Qred ((18 # 100) * inject_Z y + (9 # 100)));
     m_currentRotation := rotation;
     m_leftWheelSpeed := 0;
     m_rightWheelSpeed := 0;
     m_sensors := {[ "front" := {| sensorReading := 1 # 2; sensorReadDuration := 1 # 100 |} ]};
     m_gyro := 0 |}.

Definition state (mode : InterfaceType) : State :=
  {| interfaceType := mode; paused := false; crashed := false;
     simSpeed := 20; m_inputButtons := {[ 3 := true ]} |}.

Definition noGraphic : MazeGraphic :=
  {| g_tileColor := ∅; g_declaredWalls := ∅; g_tileFogginess := ∅; g_tileText := ∅ |}.

Definition world (mode : InterfaceType) (x y : Z) (rotation : Q) : World :=
  {| mouse := mouseAt x y rotation; sim := state mode; graphic := noGraphic;
     m_tilesWithColor := ∅; printed := []; logged := []; trace := [] |}.

(** an environment in which every sleep ends with the pause lifted *)
Definition resume (seconds : Q) (ms : Mouse * State) : Mouse * State :=
  (fst ms,
   {| interfaceType := interfaceType (snd ms); paused := false;
      crashed := crashed (snd ms); simSpeed := simSpeed (snd ms);
      m_inputButtons := m_inputButtons (snd ms) |}).

Definition pausedState (mode : InterfaceType) : State :=
  {| interfaceType := mode; paused := true; crashed := false;
     simSpeed := 20; m_inputButtons := ∅ |}.

(** the world a call returned in, or [otherwise] when it did not return *)
Definition after {A} (o : Outcome A) (otherwise : World) : World :=
  match o with
  | Returned _ w => w
  | _ => otherwise
  end.

End Demo.

(** ** The facade: [sim::MouseInterface] *)

Section MouseInterface.

(** [P()] *)
Variable P : Param.
(** whether the build defines [_WIN32] *)
Variable WIN32 : bool.
(** [m_maze] *)
Variable m_maze : Maze.
(** the lookup tables of [Color.h] and [Direction.h] *)
Variable CHAR_TO_COLOR : gmap ascii Color.
Variable STRING_TO_COLOR : gmap string Color.
Variable CHAR_TO_DIRECTION : gmap ascii Direction.
Variable DIRECTION_TO_CHAR : gmap Direction ascii.
(** what the rest of the simulator (the kinematic integrator, the key
    handlers) does to the mouse and to the process-wide state while
    the calling thread sleeps for the given number of seconds *)
Variable simulate : Q -> Mouse * State -> Mouse * State.
(** seconds of [SimUtilities::getHighResTime] that pass while the named
    sensor is read *)
Variable readElapsed : string -> World -> Q.
(** [std::to_string] on a [double] *)
Variable to_string_double : Q -> string.

(** [SimUtilities::sleep] *)
Definition sleep (seconds : Q) : M unit :=
  modify (fun w =>
    let '(m, s) := simulate seconds (mouse w, sim w) in
    with_trace (trace w ++ [EvSleep seconds]) (with_sim s (with_mouse m w))).

(** [m_mouse->setWheelSpeeds] and [m_mouse->teleport] *)
Definition Mouse_setWheelSpeeds (left right : Q) : M unit :=
  modify (fun w =>
    with_trace (trace w ++ [CmdSetWheelSpeeds left right])
      (with_mouse (MouseModel.setWheelSpeeds left right (mouse w)) w)).

Definition Mouse_teleport (translation : Cartesian) (rotation : Angle) : M unit :=
  modify (fun w =>
    with_trace (trace w ++ [CmdTeleport translation rotation])
      (with_mouse (MouseModel.teleport translation rotation (mouse w)) w)).

Definition MazeGraphic_do (f : MazeGraphic -> MazeGraphic) : M unit :=
  modify (fun w => with_graphic (f (graphic w)) w).

Definition getCurrentTranslation : M Cartesian :=
  get (fun w => m_currentTranslation (mouse w)).

Definition getCurrentRotation : M Angle :=
  get (fun w => m_currentRotation (mouse w)).

Definition getInitialTranslation : M Cartesian :=
  get (fun w => m_initialTranslation (mouse w)).

Definition tileLength : Q := (wallLength P + wallWidth P)%Q.

Definition discretizedTranslation (w : World) : Z * Z :=
  MouseModel.getDiscretizedTranslation tileLength (mouse w).

Definition discretizedRotation (w : World) : Direction :=
  MouseModel.getDiscretizedRotation (mouse w).

Definition getDiscretizedTranslation : M (Z * Z) := get discretizedTranslation.

Definition getDiscretizedRotation : M Direction := get discretizedRotation.

Definition withinMaze (x y : Z) : bool :=
  (0 <=? x) && (x <? getWidth m_maze) && (0 <=? y) && (y <? getHeight m_maze).

Definition hasOpposingWall (x y : Z) (direction : Direction) : bool :=
  match direction with
  | NORTH => y <? getHeight m_maze - 1
  | EAST => x <? getWidth m_maze - 1
  | SOUTH => 0 <? y
  | WEST => 0 <? x
  end.

Definition getOpposingWall (x y : Z) (direction : Direction) : M (Z * Z * Direction) :=
  ASSERT (hasOpposingWall x y direction) ;;
  match direction with
  | NORTH => ret (x, y + 1, SOUTH)
  | EAST => ret (x + 1, y, WEST)
  | SOUTH => ret (x, y - 1, NORTH)
  | WEST => ret (x - 1, y, EAST)
  end.

Definition delay (milliseconds : Z) : M unit :=
  sleep (Milliseconds (inject_Z milliseconds)).

Definition setTileColor (x y : Z) (color : ascii) : M unit :=
  if negb (withinMaze x y) then
    if WIN32 then ret tt
    else warn ("There is no tile at position (" ++ to_string x ++ ", "
               ++ to_string y ++ ") and thus you cannot set its color.")
  else if negb (mapContains CHAR_TO_COLOR color) then
    if WIN32 then ret tt
    else warn ("You cannot set the color of tile (" ++ to_string x ++ ", "
               ++ to_string y ++ ") to '" ++ of_char color ++ "' since '"
               ++ of_char color ++ "' is not mapped to a color.")
  else
    c <- at_ CHAR_TO_COLOR color ;;
    MazeGraphic_do (GraphicModel.setTileColor x y c) ;;
    modify (fun w => with_tilesWithColor ({[(x, y)]} ∪ m_tilesWithColor w) w).

Definition clearTileColor (x y : Z) : M unit :=
  if negb (withinMaze x y) then
    if WIN32 then ret tt
    else warn ("There is no tile at position (" ++ to_string x ++ ", "
               ++ to_string y ++ ") and thus you cannot clear its color.")
  else
    c <- at_ STRING_TO_COLOR (tileBaseColor P) ;;
    MazeGraphic_do (GraphicModel.setTileColor x y c) ;;
    modify (fun w => with_tilesWithColor (m_tilesWithColor w ∖ {[(x, y)]}) w).

Definition clearAllTileColor : M unit :=
  positions <- get (fun w => elements (m_tilesWithColor w)) ;;
  foldr (fun position rest =>
           c <- at_ STRING_TO_COLOR (tileBaseColor P) ;;
           MazeGraphic_do (GraphicModel.setTileColor (fst position) (snd position) c) ;;
           rest)
        (ret tt) positions ;;
  modify (with_tilesWithColor ∅).

Definition declareWall (x y : Z) (direction : ascii) (wallExists : bool) : M unit :=
  if negb (withinMaze x y) then
    print ("Error: There is no tile at position (" ++ to_string x ++ ", "
           ++ to_string y ++ "), and thus you cannot declare any of its walls.")
  else if negb (mapContains CHAR_TO_DIRECTION direction) then
    print ("The character '" ++ of_char direction
           ++ "' is not mapped to a valid direction.")
  else
    d <- at_ CHAR_TO_DIRECTION direction ;;
    MazeGraphic_do (GraphicModel.declareWall x y d wallExists) ;;
    if declareBothWallHalves P && hasOpposingWall x y d then
      opposing <- getOpposingWall x y d ;;
      MazeGraphic_do
        (GraphicModel.declareWall (fst (fst opposing)) (snd (fst opposing))
           (snd opposing) wallExists)
    else ret tt.

Definition undeclareWall (x y : Z) (direction : ascii) : M unit :=
  if negb (withinMaze x y) then
    print ("Error: There is no tile at position (" ++ to_string x ++ ", "
           ++ to_string y ++ "), and thus you cannot undeclare any of its walls.")
  else if negb (mapContains CHAR_TO_DIRECTION direction) then
    print ("The character '" ++ of_char direction
           ++ "' is not mapped to a valid direction.")
  else
    d <- at_ CHAR_TO_DIRECTION direction ;;
    MazeGraphic_do (GraphicModel.undeclareWall x y d) ;;
    if declareBothWallHalves P && hasOpposingWall x y d then
      opposing <- getOpposingWall x y d ;;
      MazeGraphic_do
        (GraphicModel.undeclareWall (fst (fst opposing)) (snd (fst opposing))
           (snd opposing))
    else ret tt.

Definition setTileFogginess (x y : Z) (foggy : bool) : M unit :=
  if negb (withinMaze x y) then
    print ("Error: There is no tile at position (" ++ to_string x ++ ", "
           ++ to_string y ++ "), and thus you cannot set its fogginess.")
  else if negb (algorithmControlsTileFog P) then ret tt
  else MazeGraphic_do (GraphicModel.setTileFogginess x y foggy).

Definition declareTileDistance (x y distance : Z) : M unit :=
  if negb (withinMaze x y) then
    print ("Error: There is no tile at position (" ++ to_string x ++ ", "
           ++ to_string y ++ "), and thus you cannot set its distance.")
  else MazeGraphic_do (GraphicModel.setTileText x y [to_string distance]).

Definition undeclareTileDistance (x y : Z) : M unit :=
  if negb (withinMaze x y) then
    print ("Error: There is no tile at position (" ++ to_string x ++ ", "
           ++ to_string y ++ "), and thus you cannot clear its distance.")
  else MazeGraphic_do (GraphicModel.setTileText x y []).

Definition resetPosition : M unit :=
  initial <- getInitialTranslation ;;
  Mouse_teleport initial Radians_0.

Definition inputButtonPressed (inputButton : Z) : M bool :=
  if (inputButton <? 0) || (9 <? inputButton) then
    print ("Error: There is no input button with the number "
           ++ to_string inputButton
           ++ ", and thus you cannot check to see if it has been pressed.") ;;
    ret false
  else get (fun w => StateModel.inputButtonWasPressed inputButton (sim w)).

Definition acknowledgeInputButtonPressed (inputButton : Z) : M unit :=
  if (inputButton <? 0) || (9 <? inputButton) then
    print ("Error: There is no input button with the number "
           ++ to_string inputButton
           ++ ", and thus you cannot acknowledge that it has been pressed.")
  else
    modify (fun w =>
      with_sim (StateModel.setInputButtonWasPressed inputButton false (sim w)) w).

(** *** Mode enforcement *)

Definition ensureDiscreteInterface (callingFunction : string) : M unit :=
  mode <- get (fun w => interfaceType (sim w)) ;;
  if bool_decide (mode <> DISCRETE) then
    print ("Error: You must declare the interface type to be sim::InterfaceType::DISCRETE to use MouseInterface::"
           ++ callingFunction ++ "().") ;;
    quit
  else ret tt.

Definition ensureContinuousInterface (callingFunction : string) : M unit :=
  mode <- get (fun w => interfaceType (sim w)) ;;
  if bool_decide (mode <> CONTINUOUS) then
    print ("Error: You must declare the interface type to be sim::InterfaceType::CONTINUOUS to use MouseInterface::"
           ++ callingFunction ++ "().") ;;
    quit
  else ret tt.

(** Modelled from the spec: the macros [ENSURE_DISCRETE_INTERFACE] and
    [ENSURE_CONTINUOUS_INTERFACE] come from [MouseInterface.h], which is
    not part of the sources at hand.  Each stands for a call of the
    check above with the name of the method it is written in. *)
Definition ENSURE_DISCRETE_INTERFACE (func : string) : M unit :=
  ensureDiscreteInterface func.

Definition ENSURE_CONTINUOUS_INTERFACE (func : string) : M unit :=
  ensureContinuousInterface func.

(** *** Continuous interface *)

Definition setWheelSpeeds (leftWheelRadiansPerSecond rightWheelRadiansPerSecond : Q) : M unit :=
  ENSURE_CONTINUOUS_INTERFACE "setWheelSpeeds" ;;
  Mouse_setWheelSpeeds leftWheelRadiansPerSecond rightWheelRadiansPerSecond.

Definition read (name : string) : M Q :=
  ENSURE_CONTINUOUS_INTERFACE "read" ;;
  sensors <- get (fun w => m_sensors (mouse w)) ;;
  match sensors !! name with
  | None =>
      print ("Error: There is no sensor called " ++ of_char "034" ++ name
             ++ of_char "034" ++ " and thus you cannot read its value.") ;;
      ret 0%Q
  | Some sensor =>
      let value := sensorReading sensor in
      duration <- get (readElapsed name) ;;
      let late := (duration - sensorReadDuration sensor)%Q in
      (if printLateSensorReads P && Qltb (sensorReadDuration sensor) duration then
         print ("A sensor read was late by " ++ to_string_double late
                ++ " seconds, which is "
                ++ to_string_double (late / sensorReadDuration sensor * 100)%Q
                ++ " percent late.")
       else ret tt) ;;
      sleep (std_max 0 (1 / frameRate P - duration)) ;;
      ret value
  end.

Definition readGyro : M Q :=
  ENSURE_CONTINUOUS_INTERFACE "readGyro" ;;
  get (fun w => m_gyro (mouse w)).

(** *** Discrete interface *)

Definition isWall (position : Z * Z) (direction : Direction) : M bool :=
  ASSERT ((0 <=? fst position) && (fst position <? getWidth m_maze)
          && (0 <=? snd position) && (snd position <? getHeight m_maze)) ;;
  let wallExists := tileIsWall m_maze (fst position) (snd position) direction in
  (if discreteInterfaceDeclareWallOnRead P then
     c <- at_ DIRECTION_TO_CHAR direction ;;
     declareWall (fst position) (snd position) c wallExists
   else ret tt) ;;
  ret wallExists.

Definition wallFront : M bool :=
  ENSURE_DISCRETE_INTERFACE "wallFront" ;;
  position <- getDiscretizedTranslation ;;
  direction <- getDiscretizedRotation ;;
  isWall position direction.

Definition wallRight : M bool :=
  ENSURE_DISCRETE_INTERFACE "wallRight" ;;
  position <- getDiscretizedTranslation ;;
  direction <- getDiscretizedRotation ;;
  match direction with
  | NORTH => isWall position EAST
  | EAST => isWall position SOUTH
  | SOUTH => isWall position WEST
  | WEST => isWall position NORTH
  end.

Definition wallLeft : M bool :=
  ENSURE_DISCRETE_INTERFACE "wallLeft" ;;
  position <- getDiscretizedTranslation ;;
  direction <- getDiscretizedRotation ;;
  match direction with
  | NORTH => isWall position WEST
  | EAST => isWall position NORTH
  | SOUTH => isWall position EAST
  | WEST => isWall position SOUTH
  end.

Definition checkPaused (fuel : nat) : M unit :=
  p <- get (fun w => paused (sim w)) ;;
  if p then
    Mouse_setWheelSpeeds 0 0 ;;
    while fuel (fun w => paused (sim w)) (sleep (Milliseconds (minSleepDuration P)))
  else ret tt.

(** The body shared by the four loops of [moveForward]. *)
Definition driveForward (fuel : nat) : M unit :=
  checkPaused fuel ;;
  speed <- get (fun w => simSpeed (sim w)) ;;
  Mouse_setWheelSpeeds (- speed) speed ;;
  sleep (Milliseconds (minSleepDuration P)).

(** What the [switch] of [moveForward] fixes for a heading: the
    destination, the angle of the heading, and the condition under
    which the loop of that case keeps going. *)
Definition moveForward_case (heading : Direction) (current : Cartesian)
  : Cartesian * Angle * (World -> bool) :=
  match heading with
  | NORTH =>
      let destinationTranslation := Cartesian_add current (0, tileLength) in
      (destinationTranslation, Degrees 0,
       fun w => Qltb (getY (m_currentTranslation (mouse w))) (getY destinationTranslation))
  | EAST =>
      let destinationTranslation := Cartesian_add current (tileLength, 0) in
      (destinationTranslation, Degrees 270,
       fun w => Qltb (getX (m_currentTranslation (mouse w))) (getX destinationTranslation))
  | SOUTH =>
      let destinationTranslation := Cartesian_add current (0, tileLength * -1) in
      (destinationTranslation, Degrees 180,
       fun w => Qltb (getY destinationTranslation) (getY (m_currentTranslation (mouse w))))
  | WEST =>
      let destinationTranslation := Cartesian_add current (tileLength * -1, 0) in
      (destinationTranslation, Degrees 90,
       fun w => Qltb (getX destinationTranslation) (getX (m_currentTranslation (mouse w))))
  end%Q.

Definition moveForward (fuel : nat) : M unit :=
  ENSURE_DISCRETE_INTERFACE "moveForward" ;;
  front <- wallFront ;;
  if front then
    c <- get (fun w => crashed (sim w)) ;;
    if negb c then modify (fun w => with_sim (StateModel.setCrashed (sim w)) w)
    else ret tt
  else
    cell <- getDiscretizedTranslation ;;
    initial <- getInitialTranslation ;;
    let currentX := (tileLength * inject_Z (fst cell) + getX initial)%Q in
    let currentY := (tileLength * inject_Z (snd cell) + getY initial)%Q in
    heading <- getDiscretizedRotation ;;
    let '(destinationTranslation, destinationRotation, moving) :=
      moveForward_case heading (currentX, currentY) in
    while fuel moving (driveForward fuel) ;;
    Mouse_setWheelSpeeds 0 0 ;;
    Mouse_teleport destinationTranslation destinationRotation.

(** The body shared by the loops of [turnRight], and of [turnLeft]. *)
Definition spinRight (fuel : nat) : M unit :=
  checkPaused fuel ;;
  speed <- get (fun w => simSpeed (sim w)) ;;
  Mouse_setWheelSpeeds (speed / 2) (speed / 2) ;;
  sleep (Milliseconds (minSleepDuration P)).

Definition spinLeft (fuel : nat) : M unit :=
  checkPaused fuel ;;
  speed <- get (fun w => simSpeed (sim w)) ;;
  Mouse_setWheelSpeeds (- speed / 2) (- speed / 2) ;;
  sleep (Milliseconds (minSleepDuration P)).

Definition turnRight_case (heading : Direction) (destinationRotation : Angle)
  : World -> bool :=
  fun w =>
    let current := m_currentRotation (mouse w) in
    match heading with
    | NORTH => Angle_lt destinationRotation current || Angle_lt current (Degrees 180)
    | EAST | SOUTH => Angle_lt destinationRotation current
    | WEST => Angle_lt current (Degrees 180)
    end.

Definition turnRight (fuel : nat) : M unit :=
  ENSURE_DISCRETE_INTERFACE "turnRight" ;;
  destinationTranslation <- getCurrentTranslation ;;
  current <- getCurrentRotation ;;
  let destinationRotation := Angle_sub current (Degrees 90) in
  heading <- getDiscretizedRotation ;;
  while fuel (turnRight_case heading destinationRotation) (spinRight fuel) ;;
  Mouse_setWheelSpeeds 0 0 ;;
  Mouse_teleport destinationTranslation destinationRotation.

Definition turnLeft_case (heading : Direction) (destinationRotation : Angle)
  : World -> bool :=
  fun w =>
    let current := m_currentRotation (mouse w) in
    match heading with
    | NORTH => Angle_lt current destinationRotation || Angle_lt (Degrees 180) current
    | EAST => Angle_lt (Degrees 180) current
    | SOUTH | WEST => Angle_lt current destinationRotation
    end.

Definition turnLeft (fuel : nat) : M unit :=
  ENSURE_DISCRETE_INTERFACE "turnLeft" ;;
  destinationTranslation <- getCurrentTranslation ;;
  current <- getCurrentRotation ;;
  let destinationRotation := Angle_add current (Degrees 90) in
  heading <- getDiscretizedRotation ;;
  while fuel (turnLeft_case heading destinationRotation) (spinLeft fuel) ;;
  Mouse_setWheelSpeeds 0 0 ;;
  Mouse_teleport destinationTranslation destinationRotation.

Definition turnAround (fuel : nat) : M unit :=
  ENSURE_DISCRETE_INTERFACE "turnAround" ;;
  turnRight fuel ;;
  turnRight fuel.


(** ** The operations behind a mode gate *)

Inductive GatedOperation :=
| OpSetWheelSpeeds (left right : Q)
| OpRead (name : string)
| OpReadGyro
| OpWallFront
| OpWallLeft
| OpWallRight
| OpMoveForward
| OpTurnLeft
| OpTurnRight
| OpTurnAround.

Definition requiredInterface (op : GatedOperation) : InterfaceType :=
  match op with
  | OpSetWheelSpeeds _ _ | OpRead _ | OpReadGyro => CONTINUOUS
  | _ => DISCRETE
  end.

Definition methodName (op : GatedOperation) : string :=
  match op with
  | OpSetWheelSpeeds _ _ => "setWheelSpeeds"
  | OpRead _ => "read"
  | OpReadGyro => "readGyro"
  | OpWallFront => "wallFront"
  | OpWallLeft => "wallLeft"
  | OpWallRight => "wallRight"
  | OpMoveForward => "moveForward"
  | OpTurnLeft => "turnLeft"
  | OpTurnRight => "turnRight"
  | OpTurnAround => "turnAround"
  end.

Definition interfaceName (mode : InterfaceType) : string :=
  match mode with
  | UNINITIALIZED => "UNINITIALIZED"
  | DISCRETE => "DISCRETE"
  | CONTINUOUS => "CONTINUOUS"
  end.

(** the call of an operation, its result dropped *)
Definition call (fuel : nat) (op : GatedOperation) : M unit :=
  match op with
  | OpSetWheelSpeeds l r => setWheelSpeeds l r
  | OpRead name => _ <- read name ;; ret tt
  | OpReadGyro => _ <- readGyro ;; ret tt
  | OpWallFront => _ <- wallFront ;; ret tt
  | OpWallLeft => _ <- wallLeft ;; ret tt
  | OpWallRight => _ <- wallRight ;; ret tt
  | OpMoveForward => moveForward fuel
  | OpTurnLeft => turnLeft fuel
  | OpTurnRight => turnRight fuel
  | OpTurnAround => turnAround fuel
  end.

(** the line a mode mismatch puts on the console *)
Definition modeMismatch (op : GatedOperation) : string :=
  "Error: You must declare the interface type to be sim::InterfaceType::"
  ++ interfaceName (requiredInterface op) ++ " to use MouseInterface::"
  ++ methodName op ++ "().".

(** ** Reasoning about calls *)

(** What a call that only annotates leaves alone: the mouse, the
    process-wide state and the commands sent so far. *)
Definition sameSimulation (w w' : World) : Prop :=
  mouse w' = mouse w /\ sim w' = sim w /\ trace w' = trace w.

Lemma sameSimulation_refl w : sameSimulation w w.
Proof. repeat split. Qed.

Lemma sameSimulation_trans w1 w2 w3 :
  sameSimulation w1 w2 -> sameSimulation w2 w3 -> sameSimulation w1 w3.
Proof.
  unfold sameSimulation.
  intros (Hm & Hs & Ht) (Hm' & Hs' & Ht'); repeat split; congruence.
Qed.

Lemma bind_Returned {A B} (c : M A) (k : A -> M B) w b w' :
  bind c k w = Returned b w' ->
  exists a w1, c w = Returned a w1 /\ k a w1 = Returned b w'.
Proof.
  unfold bind. destruct (c w) as [a w1 | |]; try discriminate. eauto.
Qed.

Lemma while_exit fuel cond body w w' :
  while fuel cond body w = Returned tt w' -> cond w' = false.
Proof.
  revert w. induction fuel as [| n IH]; intros w; simpl;
    destruct (cond w) eqn:Hc; try discriminate.
  - intros [= <-]. exact Hc.
  - intros H. apply bind_Returned in H as (_ & w1 & _ & H). eauto.
  - intros [= <-]. exact Hc.
Qed.

(** A relation between worlds that is reflexive, transitive and kept
    by every turn of the body is kept by the whole loop. *)
Lemma while_rel (R : World -> World -> Prop) fuel cond body :
  (forall w, R w w) ->
  (forall w1 w2 w3, R w1 w2 -> R w2 w3 -> R w1 w3) ->
  (forall w w', body w = Returned tt w' -> R w w') ->
  forall w w', while fuel cond body w = Returned tt w' -> R w w'.
Proof.
  intros Hrefl Htrans Hbody.
  induction fuel as [| n IH]; intros w w'; simpl;
    destruct (cond w); try discriminate.
  - intros [= <-]. apply Hrefl.
  - intros H. apply bind_Returned in H as ([] & w1 & H1 & H2). eauto.
  - intros [= <-]. apply Hrefl.
Qed.

Lemma getOpposingWall_returns x y d w :
  hasOpposingWall x y d = true ->
  exists o, getOpposingWall x y d w = Returned o w.
Proof.
  intros H. unfold getOpposingWall, bind, ASSERT. rewrite H.
  destruct d; simpl; eauto.
Qed.

Lemma at_mapContains `{Countable K} {V} (m : gmap K V) (k : K) w :
  mapContains m k = true -> exists v, m !! k = Some v /\ at_ m k w = Returned v w.
Proof.
  unfold mapContains, at_. intros Hc. apply bool_decide_eq_true in Hc as [v Hv].
  rewrite Hv. eauto.
Qed.

(** [declareWall] always returns, and touches nothing but the graphic
    and the console. *)
Lemma declareWall_returns x y c b w :
  exists w', declareWall x y c b w = Returned tt w' /\ sameSimulation w w'.
Proof.
  unfold declareWall.
  destruct (withinMaze x y); simpl; [| eexists; split; [reflexivity | repeat split]].
  destruct (mapContains CHAR_TO_DIRECTION c) eqn:Hc; simpl;
    [| eexists; split; [reflexivity | repeat split]].
  destruct (at_mapContains CHAR_TO_DIRECTION c w Hc) as (d & _ & Hat).
  unfold bind at 1. rewrite Hat.
  unfold bind at 1. unfold MazeGraphic_do at 1. unfold modify at 1.
  destruct (declareBothWallHalves P && hasOpposingWall x y d) eqn:Hopp.
  - apply andb_prop in Hopp as [_ Hopp].
    edestruct (getOpposingWall_returns x y d) as [o Ho]; [exact Hopp |].
    unfold bind. rewrite Ho. eexists; split; [reflexivity | repeat split].
  - eexists; split; [reflexivity | repeat split].
Qed.

(** What [wallFront] needs in order to return, and what it returns. *)
Definition wallFrontDefined (w : World) : Prop :=
  interfaceType (sim w) = DISCRETE /\
  withinMaze (fst (discretizedTranslation w)) (snd (discretizedTranslation w)) = true /\
  (discreteInterfaceDeclareWallOnRead P = true ->
   is_Some (DIRECTION_TO_CHAR !! discretizedRotation w)).

Definition wallAhead (w : World) : bool :=
  tileIsWall m_maze (fst (discretizedTranslation w)) (snd (discretizedTranslation w))
    (discretizedRotation w).

Lemma ensureDiscreteInterface_Returned func w u w' :
  ensureDiscreteInterface func w = Returned u w' ->
  interfaceType (sim w) = DISCRETE /\ w' = w.
Proof.
  unfold ensureDiscreteInterface, bind, get.
  destruct (interfaceType (sim w)); simpl; try discriminate.
  intros [= <-]. auto.
Qed.

Lemma ensureDiscreteInterface_passes func w :
  interfaceType (sim w) = DISCRETE ->
  ensureDiscreteInterface func w = Returned tt w.
Proof.
  intros H. unfold ensureDiscreteInterface, bind, get. rewrite H. reflexivity.
Qed.

Lemma wallFront_Returned w b w' :
  wallFront w = Returned b w' ->
  wallFrontDefined w /\ b = wallAhead w /\ sameSimulation w w'.
Proof.
  unfold wallFront, ENSURE_DISCRETE_INTERFACE. intros H.
  apply bind_Returned in H as (u & w1 & Hens & H).
  apply ensureDiscreteInterface_Returned in Hens as [Hmode ->].
  unfold getDiscretizedTranslation, getDiscretizedRotation, get, bind at 1 2 in H.
  unfold isWall in H.
  apply bind_Returned in H as (u1 & w1 & Hassert & H).
  unfold ASSERT in Hassert.
  match type of Hassert with (if ?c then _ else _) _ = _ => destruct c eqn:Hin end;
    [| discriminate].
  injection Hassert as _ <-.
  apply bind_Returned in H as (u2 & w2 & Hdecl & H).
  injection H as <- <-.
  unfold wallFrontDefined, wallAhead, withinMaze.
  destruct (discreteInterfaceDeclareWallOnRead P).
  - apply bind_Returned in Hdecl as (c & w3 & Hat & Hdecl).
    unfold at_ in Hat.
    destruct (DIRECTION_TO_CHAR !! discretizedRotation w) as [c' |] eqn:Hc;
      [| discriminate].
    injection Hat as -> <-.
    destruct (declareWall_returns (fst (discretizedTranslation w))
                (snd (discretizedTranslation w)) c (wallAhead w) w) as (w4 & Hw4 & Hsame).
    unfold wallAhead in Hw4. rewrite Hw4 in Hdecl. injection Hdecl as Heq.
    subst w2. repeat split; eauto; apply Hsame.
  - injection Hdecl as Heq. subst w2. repeat split; auto; intros; discriminate.
Qed.

Lemma wallFront_returns w :
  wallFrontDefined w ->
  exists w', wallFront w = Returned (wallAhead w) w' /\ sameSimulation w w'.
Proof.
  intros (Hmode & Hin & Hchar).
  unfold wallFront, ENSURE_DISCRETE_INTERFACE.
  unfold bind at 1. rewrite (ensureDiscreteInterface_passes _ _ Hmode).
  unfold getDiscretizedTranslation, getDiscretizedRotation, get, bind at 1 2.
  unfold isWall, ASSERT. unfold withinMaze in Hin.
  unfold bind at 1. rewrite Hin. unfold ret at 1.
  destruct (discreteInterfaceDeclareWallOnRead P).
  - destruct Hchar as [c Hc]; [reflexivity |].
    destruct (declareWall_returns (fst (discretizedTranslation w))
                (snd (discretizedTranslation w)) c (wallAhead w) w) as (w4 & Hw4 & Hsame).
    unfold bind, at_. rewrite Hc. unfold ret at 1.
    unfold wallAhead in Hw4. rewrite Hw4. eexists; split; [reflexivity | exact Hsame].
  - eexists; split; [reflexivity | apply sameSimulation_refl].
Qed.

(** The crash branch of [moveForward]. *)
Lemma moveForward_crash fuel w :
  wallFrontDefined w -> wallAhead w = true ->
  exists w1,
    moveForward fuel w = Returned tt w1 /\
    crashed (sim w1) = true /\
    interfaceType (sim w1) = interfaceType (sim w) /\
    mouse w1 = mouse w /\ trace w1 = trace w.
Proof.
  intros Hdef Hwall.
  destruct (wallFront_returns w Hdef) as (w0 & Hfront & Hm & Hs & Ht).
  rewrite Hwall in Hfront.
  unfold moveForward, ENSURE_DISCRETE_INTERFACE.
  unfold bind at 1.
  rewrite (ensureDiscreteInterface_passes _ _ (proj1 Hdef)).
  unfold bind at 1. rewrite Hfront.
  unfold bind, get, modify, ret.
  destruct (crashed (sim w0)) eqn:Hc; simpl.
  - exists w0. rewrite Hs in *. auto.
  - eexists; split; [reflexivity |]. simpl. rewrite Hs. auto.
Qed.

Lemma wallFrontDefined_same w w' :
  mouse w' = mouse w -> interfaceType (sim w') = interfaceType (sim w) ->
  wallFrontDefined w -> wallFrontDefined w'.
Proof.
  unfold wallFrontDefined, discretizedTranslation, discretizedRotation.
  intros -> ->. auto.
Qed.

Lemma wallAhead_same w w' : mouse w' = mouse w -> wallAhead w' = wallAhead w.
Proof.
  unfold wallAhead, discretizedTranslation, discretizedRotation. intros ->. reflexivity.
Qed.

(** ** Walls seen from both sides *)

(** The wall that lies against wall [direction] of tile [(x, y)] on the
    other side: north of [(x, y)] is south of [(x, y + 1)], east is west
    of [(x + 1, y)], south is north of [(x, y - 1)], west is east of
    [(x - 1, y)]. *)
Definition opposingWall (x y : Z) (direction : Direction) : Z * Z * Direction :=
  match direction with
  | NORTH => (x, y + 1, SOUTH)
  | EAST => (x + 1, y, WEST)
  | SOUTH => (x, y - 1, NORTH)
  | WEST => (x - 1, y, EAST)
  end.

Definition neighbourExists (x y : Z) (direction : Direction) : bool :=
  withinMaze (fst (fst (opposingWall x y direction)))
             (snd (fst (opposingWall x y direction))).

Lemma hasOpposingWall_neighbourExists x y d :
  withinMaze x y = true -> hasOpposingWall x y d = neighbourExists x y d.
Proof.
  unfold neighbourExists, hasOpposingWall. intros Hin.
  destruct d; simpl; unfold withinMaze in *;
    repeat (apply andb_prop in Hin as [Hin ?]);
    apply eq_true_iff_eq;
    rewrite ?andb_true_iff, ?Z.ltb_lt, ?Z.leb_le in *; lia.
Qed.

Lemma opposingWall_differs x y d : opposingWall x y d <> (x, y, d).
Proof. destruct d; simpl; intros [=]. Qed.

(** What the wall calls do on an input that is valid. *)
Lemma declareWall_valid x y c d b w :
  withinMaze x y = true -> CHAR_TO_DIRECTION !! c = Some d ->
  declareWall x y c b w
  = Returned tt
      (with_graphic
         (if declareBothWallHalves P && neighbourExists x y d
          then GraphicModel.declareWall (fst (fst (opposingWall x y d)))
                 (snd (fst (opposingWall x y d))) (snd (opposingWall x y d)) b
                 (GraphicModel.declareWall x y d b (graphic w))
          else GraphicModel.declareWall x y d b (graphic w)) w).
Proof.
  intros Hin Hc.
  pose proof (hasOpposingWall_neighbourExists x y d Hin) as Hopp.
  unfold declareWall, mapContains. rewrite Hin, Hc.
  rewrite bool_decide_eq_true_2 by eauto. simpl.
  unfold bind, at_, MazeGraphic_do, modify, ret, getOpposingWall, ASSERT.
  rewrite Hc, <- Hopp.
  destruct (declareBothWallHalves P), (hasOpposingWall x y d), d; reflexivity.
Qed.

Lemma undeclareWall_valid x y c d w :
  withinMaze x y = true -> CHAR_TO_DIRECTION !! c = Some d ->
  undeclareWall x y c w
  = Returned tt
      (with_graphic
         (if declareBothWallHalves P && neighbourExists x y d
          then GraphicModel.undeclareWall (fst (fst (opposingWall x y d)))
                 (snd (fst (opposingWall x y d))) (snd (opposingWall x y d))
                 (GraphicModel.undeclareWall x y d (graphic w))
          else GraphicModel.undeclareWall x y d (graphic w)) w).
Proof.
  intros Hin Hc.
  pose proof (hasOpposingWall_neighbourExists x y d Hin) as Hopp.
  unfold undeclareWall, mapContains. rewrite Hin, Hc.
  rewrite bool_decide_eq_true_2 by eauto. simpl.
  unfold bind, at_, MazeGraphic_do, modify, ret, getOpposingWall, ASSERT.
  rewrite Hc, <- Hopp.
  destruct (declareBothWallHalves P), (hasOpposingWall x y d), d; reflexivity.
Qed.

(** ** Tile annotation with an input that is not valid *)

Inductive Annotation :=
| ASetTileColor (x y : Z) (color : ascii)
| AClearTileColor (x y : Z)
| ADeclareWall (x y : Z) (direction : ascii) (wallExists : bool)
| AUndeclareWall (x y : Z) (direction : ascii)
| ASetTileFogginess (x y : Z) (foggy : bool)
| ADeclareTileDistance (x y : Z) (distance : Z)
| AUndeclareTileDistance (x y : Z).

Definition annotate (a : Annotation) : M unit :=
  match a with
  | ASetTileColor x y color => setTileColor x y color
  | AClearTileColor x y => clearTileColor x y
  | ADeclareWall x y direction wallExists => declareWall x y direction wallExists
  | AUndeclareWall x y direction => undeclareWall x y direction
  | ASetTileFogginess x y foggy => setTileFogginess x y foggy
  | ADeclareTileDistance x y distance => declareTileDistance x y distance
  | AUndeclareTileDistance x y => undeclareTileDistance x y
  end.






(** ** The motion loops *)

Definition isTeleport (e : Event) : bool :=
  match e with CmdTeleport _ _ => true | _ => false end.

Definition noTeleport (es : list Event) : bool := forallb (fun e => negb (isTeleport e)) es.

(** Replays a run of events from the wheel speeds [left] and [right] and
    checks that every teleport in it comes while the speeds last
    commanded are both zero. *)
Fixpoint teleportsAtRest (left right : Q) (es : list Event) : bool :=
  match es with
  | [] => true
  | CmdSetWheelSpeeds l r :: es' => teleportsAtRest l r es'
  | CmdTeleport _ _ :: es' =>
      Qeq_bool left 0 && Qeq_bool right 0 && teleportsAtRest left right es'
  | EvSleep _ :: es' => teleportsAtRest left right es'
  end.

(** A call is quiet when all it adds to the trace are wheel commands and
    sleeps. *)
Definition quiet (w w' : World) : Prop :=
  exists es, trace w' = (trace w ++ es)%list /\ noTeleport es = true.

Definition quietly {A} (c : M A) : Prop :=
  forall w a w', c w = Returned a w' -> quiet w w'.

Lemma quiet_refl w : quiet w w.
Proof. exists []. split; [symmetry; apply app_nil_r | reflexivity]. Qed.

Lemma quiet_trans w1 w2 w3 : quiet w1 w2 -> quiet w2 w3 -> quiet w1 w3.
Proof.
  intros (es1 & H1 & Hq1) (es2 & H2 & Hq2). exists (es1 ++ es2)%list. split.
  - rewrite H2, H1. symmetry. apply app_assoc.
  - unfold noTeleport in *. rewrite forallb_app, Hq1, Hq2. reflexivity.
Qed.

Lemma quietly_ret {A} (a : A) : quietly (ret a).
Proof. intros w a' w' [= _ <-]. apply quiet_refl. Qed.

Lemma quietly_get {A} (f : World -> A) : quietly (get f).
Proof. intros w a' w' [= _ <-]. apply quiet_refl. Qed.

Lemma quietly_bind {A B} (c : M A) (k : A -> M B) :
  quietly c -> (forall a, quietly (k a)) -> quietly (bind c k).
Proof.
  intros Hc Hk w b w' H. apply bind_Returned in H as (a & w1 & H1 & H2).
  eapply quiet_trans; [eapply Hc | eapply Hk]; eauto.
Qed.

Lemma quietly_while fuel cond body : quietly body -> quietly (while fuel cond body).
Proof.
  intros Hbody w [] w'. apply while_rel.
  - apply quiet_refl.
  - apply quiet_trans.
  - intros w1 w2. apply Hbody.
Qed.

Lemma quietly_setWheelSpeeds l r : quietly (Mouse_setWheelSpeeds l r).
Proof.
  intros w a w' H. inversion H; subst.
  exists [CmdSetWheelSpeeds l r]. split; reflexivity.
Qed.

Lemma quietly_sleep seconds : quietly (sleep seconds).
Proof.
  intros w a w'. unfold sleep, modify.
  destruct (simulate seconds (mouse w, sim w)) as [m s'].
  intros H. inversion H; subst. exists [EvSleep seconds]. split; reflexivity.
Qed.

Lemma quietly_checkPaused fuel : quietly (checkPaused fuel).
Proof.
  unfold checkPaused. apply quietly_bind; [apply quietly_get |].
  intros []; [| apply quietly_ret].
  apply quietly_bind; [apply quietly_setWheelSpeeds |].
  intros _. apply quietly_while, quietly_sleep.
Qed.

Lemma quietly_driveForward fuel : quietly (driveForward fuel).
Proof.
  unfold driveForward.
  apply quietly_bind; [apply quietly_checkPaused | intros _].
  apply quietly_bind; [apply quietly_get | intros speed].
  apply quietly_bind; [apply quietly_setWheelSpeeds | intros _; apply quietly_sleep].
Qed.

Lemma quietly_spinRight fuel : quietly (spinRight fuel).
Proof.
  unfold spinRight.
  apply quietly_bind; [apply quietly_checkPaused | intros _].
  apply quietly_bind; [apply quietly_get | intros speed].
  apply quietly_bind; [apply quietly_setWheelSpeeds | intros _; apply quietly_sleep].
Qed.

Lemma quietly_spinLeft fuel : quietly (spinLeft fuel).
Proof.
  unfold spinLeft.
  apply quietly_bind; [apply quietly_checkPaused | intros _].
  apply quietly_bind; [apply quietly_get | intros speed].
  apply quietly_bind; [apply quietly_setWheelSpeeds | intros _; apply quietly_sleep].
Qed.

Lemma teleportsAtRest_after_stop es l r destination rotation :
  noTeleport es = true ->
  teleportsAtRest l r (es ++ [CmdSetWheelSpeeds 0 0; CmdTeleport destination rotation]) = true.
Proof.
  revert l r. induction es as [| e es IH]; intros l r Hq; simpl.
  - reflexivity.
  - simpl in Hq. apply andb_prop in Hq as [He Hq].
    destruct e; simpl in *; try discriminate; auto.
Qed.

(** The three motions that run a loop, the destination each fixes when
    it starts, and the condition under which its loop keeps going. *)
Inductive Motion := MoveForward | TurnRight | TurnLeft.

Definition run (fuel : nat) (m : Motion) : M unit :=
  match m with
  | MoveForward => moveForward fuel
  | TurnRight => turnRight fuel
  | TurnLeft => turnLeft fuel
  end.

Definition moveForward_plan (w : World) : Cartesian * Angle * (World -> bool) :=
  moveForward_case (discretizedRotation w)
    ((tileLength * inject_Z (fst (discretizedTranslation w))
      + getX (m_initialTranslation (mouse w)))%Q,
     (tileLength * inject_Z (snd (discretizedTranslation w))
      + getY (m_initialTranslation (mouse w)))%Q).

Definition plan (m : Motion) (w : World) : Cartesian * Angle * (World -> bool) :=
  match m with
  | MoveForward => moveForward_plan w
  | TurnRight =>
      let destinationRotation := Angle_sub (m_currentRotation (mouse w)) (Degrees 90) in
      (m_currentTranslation (mouse w), destinationRotation,
       turnRight_case (discretizedRotation w) destinationRotation)
  | TurnLeft =>
      let destinationRotation := Angle_add (m_currentRotation (mouse w)) (Degrees 90) in
      (m_currentTranslation (mouse w), destinationRotation,
       turnLeft_case (discretizedRotation w) destinationRotation)
  end.

(** How the world at the exit of a loop, [w1], and the world the motion
    returns, [w'], are related. *)
Definition arrived (destination : Cartesian) (rotation : Angle) (w1 w' : World) : Prop :=
  mouse w' = MouseModel.teleport destination rotation
               (MouseModel.setWheelSpeeds 0 0 (mouse w1)) /\
  sim w' = sim w1 /\
  trace w' = (trace w1 ++ [CmdSetWheelSpeeds 0 0; CmdTeleport destination rotation])%list.

Lemma stop_and_teleport destination rotation w1 w' :
  (Mouse_setWheelSpeeds 0 0 ;; Mouse_teleport destination rotation) w1 = Returned tt w' ->
  arrived destination rotation w1 w'.
Proof.
  intros H. inversion H; subst. unfold arrived; simpl. repeat split.
  rewrite <- app_assoc. reflexivity.
Qed.

(** A loop followed by the stop and the teleport. *)
Lemma loop_then_arrive fuel moving body destination rotation w w' :
  quietly body ->
  (while fuel moving body ;;
   Mouse_setWheelSpeeds 0 0 ;;
   Mouse_teleport destination rotation) w = Returned tt w' ->
  exists w1, quiet w w1 /\ moving w1 = false /\ arrived destination rotation w1 w'.
Proof.
  intros Hbody H. apply bind_Returned in H as ([] & w1 & Hloop & Hend).
  exists w1. split; [| split].
  - eapply quietly_while; eauto.
  - eapply while_exit; eauto.
  - apply stop_and_teleport. exact Hend.
Qed.

(** What a motion that returns has done: either it is a [moveForward]
    that found a wall ahead and sent nothing to the mouse, or its loop
    ran quietly up to a world in which the loop condition is false, and
    from there the wheels were stopped and the mouse teleported to the
    destination fixed at the start. *)
Lemma motion_Returned fuel m w w' :
  run fuel m w = Returned tt w' ->
  interfaceType (sim w) = DISCRETE /\
  ((m = MoveForward /\ wallFrontDefined w /\ wallAhead w = true /\
    mouse w' = mouse w /\ trace w' = trace w)
   \/
   (m = MoveForward -> wallFrontDefined w /\ wallAhead w = false) /\
   exists w1,
     quiet w w1 /\ snd (plan m w) w1 = false /\
     arrived (fst (fst (plan m w))) (snd (fst (plan m w))) w1 w').
Proof.
  destruct m; simpl; unfold moveForward, turnRight, turnLeft, ENSURE_DISCRETE_INTERFACE;
    intros H; apply bind_Returned in H as (u & w0 & Hens & H);
    apply ensureDiscreteInterface_Returned in Hens as [Hmode ->];
    (split; [exact Hmode |]).
  - apply bind_Returned in H as (front & w0 & Hfront & H).
    apply wallFront_Returned in Hfront as (Hdef & -> & Hm & Hs & Ht).
    destruct (wallAhead w) eqn:Hwall.
    + left. repeat split; try apply Hdef.
      * unfold bind, get, modify, ret in H.
        destruct (crashed (sim w0)); injection H as <-; simpl; assumption.
      * unfold bind, get, modify, ret in H.
        destruct (crashed (sim w0)); injection H as <-; simpl; assumption.
    + right. split; [auto |].
      unfold getDiscretizedTranslation, getInitialTranslation, getDiscretizedRotation in H.
      unfold get, bind at 1 2 3 in H.
      assert (Hplan : moveForward_plan w0 = moveForward_plan w).
      { unfold moveForward_plan, discretizedRotation, discretizedTranslation.
        rewrite Hm. reflexivity. }
      unfold moveForward_plan in Hplan at 1. rewrite Hplan in H.
      destruct (moveForward_plan w) as [[destination rotation] moving]; simpl.
      apply loop_then_arrive in H as (w1 & Hq & Hexit & Harr);
        [| apply quietly_driveForward].
      exists w1. repeat split; try assumption; try apply Harr.
      destruct Hq as (es & Hes & Hno). exists es. split; [congruence | assumption].
  - right. split; [discriminate |].
    unfold getCurrentTranslation, getCurrentRotation, getDiscretizedRotation in H.
    unfold get, bind at 1 2 3 in H.
    apply loop_then_arrive in H as (w1 & Hq & Hexit & Harr);
      [| apply quietly_spinRight].
    exists w1. auto.
  - right. split; [discriminate |].
    unfold getCurrentTranslation, getCurrentRotation, getDiscretizedRotation in H.
    unfold get, bind at 1 2 3 in H.
    apply loop_then_arrive in H as (w1 & Hq & Hexit & Harr);
      [| apply quietly_spinLeft].
    exists w1. auto.
Qed.

(** The body of the loop of each motion, and the world in which its
    loop starts: the world of the call for a turn, the world [wallFront]
    returned false in for a [moveForward]. *)
Definition loopBody (fuel : nat) (m : Motion) : M unit :=
  match m with
  | MoveForward => driveForward fuel
  | TurnRight => spinRight fuel
  | TurnLeft => spinLeft fuel
  end.

Definition loopStart (m : Motion) (w w0 : World) : Prop :=
  match m with
  | MoveForward => wallFront w = Returned false w0
  | TurnRight | TurnLeft => w0 = w
  end.

Lemma quietly_loopBody fuel m : quietly (loopBody fuel m).
Proof.
  destruct m; simpl;
    [apply quietly_driveForward | apply quietly_spinRight | apply quietly_spinLeft].
Qed.

(** A motion that returns, cut at the exit of its loop: either it is a
    [moveForward] that found a wall ahead, or its loop, started in [w0],
    returned in some world [w1], and the stop and the teleport, run from
    that very [w1], returned the world of the motion. *)
Lemma motion_loop fuel m w w' :
  run fuel m w = Returned tt w' ->
  (m = MoveForward /\ wallAhead w = true /\ mouse w' = mouse w /\ trace w' = trace w)
  \/
  exists w0 w1,
    loopStart m w w0 /\ sameSimulation w w0 /\
    while fuel (snd (plan m w)) (loopBody fuel m) w0 = Returned tt w1 /\
    (Mouse_setWheelSpeeds 0 0 ;;
     Mouse_teleport (fst (fst (plan m w))) (snd (fst (plan m w)))) w1 = Returned tt w'.
Proof.
  destruct m; simpl; unfold moveForward, turnRight, turnLeft, ENSURE_DISCRETE_INTERFACE;
    intros H; apply bind_Returned in H as (u & w0 & Hens & H);
    apply ensureDiscreteInterface_Returned in Hens as [Hmode ->].
  - apply bind_Returned in H as (front & w0 & Hfront & H).
    pose proof (wallFront_Returned _ _ _ Hfront) as (Hdef & Hb & Hm & Hs & Ht).
    destruct (wallAhead w) eqn:Hwall; subst front.
    + left. split; [reflexivity |]. split; [reflexivity |].
      unfold bind, get, modify, ret in H.
      destruct (crashed (sim w0)); inversion H; subst; simpl; auto.
    + right.
      unfold getDiscretizedTranslation, getInitialTranslation, getDiscretizedRotation in H.
      unfold get, bind at 1 2 3 in H.
      assert (Hplan : moveForward_plan w0 = moveForward_plan w).
      { unfold moveForward_plan, discretizedRotation, discretizedTranslation.
        rewrite Hm. reflexivity. }
      unfold moveForward_plan in Hplan at 1. rewrite Hplan in H.
      destruct (moveForward_plan w) as [[destination rotation] moving]. simpl.
      apply bind_Returned in H as ([] & w1 & Hloop & Hend).
      exists w0, w1. repeat split; assumption.
  - right.
    unfold getCurrentTranslation, getCurrentRotation, getDiscretizedRotation in H.
    unfold get, bind at 1 2 3 in H.
    apply bind_Returned in H as ([] & w1 & Hloop & Hend).
    exists w, w1. repeat split; assumption.
  - right.
    unfold getCurrentTranslation, getCurrentRotation, getDiscretizedRotation in H.
    unfold get, bind at 1 2 3 in H.
    apply bind_Returned in H as ([] & w1 & Hloop & Hend).
    exists w, w1. repeat split; assumption.
Qed.

(** *** Fuel is only a bound

    A call that returns within some fuel returns the same world with any
    larger fuel: the fuel bounds the number of turns of a loop and has
    no other part in the result. *)

Definition monotone (c : nat -> M unit) : Prop :=
  forall n n' w w', (n <= n')%nat -> c n w = Returned tt w' -> c n' w = Returned tt w'.

Lemma bind_mono {A} (c : M A) (k k' : A -> M unit) w w' :
  (forall a w1, k a w1 = Returned tt w' -> k' a w1 = Returned tt w') ->
  bind c k w = Returned tt w' -> bind c k' w = Returned tt w'.
Proof.
  intros Hk H. apply bind_Returned in H as (a & w1 & Hc & H).
  unfold bind. rewrite Hc. auto.
Qed.

Lemma while_mono cond (body body' : M unit) :
  (forall w w', body w = Returned tt w' -> body' w = Returned tt w') ->
  forall n n' w w', (n <= n')%nat ->
    while n cond body w = Returned tt w' -> while n' cond body' w = Returned tt w'.
Proof.
  intros Hbody. induction n as [| n IH]; intros n' w w' Hle; simpl.
  - destruct n'; simpl; destruct (cond w); try discriminate; auto.
  - destruct n' as [| n']; [lia |]. simpl. destruct (cond w); [| auto].
    intros H. apply bind_Returned in H as ([] & w1 & H1 & H2).
    unfold bind. rewrite (Hbody _ _ H1). apply IH; [lia | exact H2].
Qed.

Lemma checkPaused_mono : monotone checkPaused.
Proof.
  intros n n' w w' Hle. unfold checkPaused. apply bind_mono. intros p w1.
  destruct p; [| auto]. apply bind_mono. intros _ w2.
  apply while_mono; auto.
Qed.

Lemma driveForward_mono : monotone driveForward.
Proof.
  intros n n' w w' Hle H. unfold driveForward in *.
  apply bind_Returned in H as ([] & w1 & H1 & H2).
  unfold bind at 1. rewrite (checkPaused_mono n n' w w1 Hle H1). exact H2.
Qed.

Lemma spinRight_mono : monotone spinRight.
Proof.
  intros n n' w w' Hle H. unfold spinRight in *.
  apply bind_Returned in H as ([] & w1 & H1 & H2).
  unfold bind at 1. rewrite (checkPaused_mono n n' w w1 Hle H1). exact H2.
Qed.

Lemma spinLeft_mono : monotone spinLeft.
Proof.
  intros n n' w w' Hle H. unfold spinLeft in *.
  apply bind_Returned in H as ([] & w1 & H1 & H2).
  unfold bind at 1. rewrite (checkPaused_mono n n' w w1 Hle H1). exact H2.
Qed.

Lemma loop_mono (body : nat -> M unit) cond (rest : M unit) :
  monotone body ->
  monotone (fun fuel => while fuel cond (body fuel) ;; rest).
Proof.
  intros Hbody n n' w w' Hle H.
  apply bind_Returned in H as ([] & w1 & H1 & H2).
  unfold bind.
  rewrite (while_mono cond (body n) (body n') (fun a b => Hbody n n' a b Hle)
             n n' w w1 Hle H1).
  exact H2.
Qed.

Lemma run_mono m : monotone (fun fuel => run fuel m).
Proof.
  intros n n' w w' Hle.
  destruct m; simpl; unfold moveForward, turnRight, turnLeft; apply bind_mono; intros _ w0.
  - apply bind_mono. intros front w1. destruct front; [auto |].
    apply bind_mono; intros cell w2. apply bind_mono; intros initial w3.
    apply bind_mono; intros heading w4.
    destruct (moveForward_case heading _) as [[destination rotation] moving].
    apply (loop_mono driveForward moving _ driveForward_mono n n' w4 w' Hle).
  - apply bind_mono; intros destination w1. apply bind_mono; intros current w2.
    apply bind_mono; intros heading w3.
    apply (loop_mono spinRight _ _ spinRight_mono n n' w3 w' Hle).
  - apply bind_mono; intros destination w1. apply bind_mono; intros current w2.
    apply bind_mono; intros heading w3.
    apply (loop_mono spinLeft _ _ spinLeft_mono n n' w3 w' Hle).
Qed.

(** ** Cells and headings *)

(** the cell one tile ahead of [cell] along [heading] *)
Definition cellAhead (cell : Z * Z) (heading : Direction) : Z * Z :=
  match heading with
  | NORTH => (fst cell, snd cell + 1)
  | EAST => (fst cell + 1, snd cell)
  | SOUTH => (fst cell, snd cell - 1)
  | WEST => (fst cell - 1, snd cell)
  end.

(** the angle [moveForward] gives each heading *)
Definition canonicalAngle (heading : Direction) : Q :=
  match heading with
  | NORTH => 0
  | WEST => 90
  | SOUTH => 180
  | EAST => 270
  end.

Definition rightOf (heading : Direction) : Direction :=
  match heading with
  | NORTH => EAST
  | EAST => SOUTH
  | SOUTH => WEST
  | WEST => NORTH
  end.

Definition leftOf (heading : Direction) : Direction :=
  match heading with
  | NORTH => WEST
  | WEST => SOUTH
  | SOUTH => EAST
  | EAST => NORTH
  end.

(** the initial translation of the mouse lies in the tile at the origin *)
Definition startsInOriginTile (w : World) : Prop :=
  (0 <= getX (m_initialTranslation (mouse w)))%Q /\
  (getX (m_initialTranslation (mouse w)) < tileLength)%Q /\
  (0 <= getY (m_initialTranslation (mouse w)))%Q /\
  (getY (m_initialTranslation (mouse w)) < tileLength)%Q.

Lemma Qfloor_unique (x : Q) (n : Z) :
  (inject_Z n <= x)%Q -> (x < inject_Z (n + 1))%Q -> Qfloor x = n.
Proof.
  intros Hlo Hhi.
  assert (H1 : n <= Qfloor x).
  { rewrite <- (Qfloor_Z n). apply Qfloor_resp_le. exact Hlo. }
  assert (H2 : Qfloor x < n + 1).
  { rewrite Zlt_Qlt. eapply Qle_lt_trans; [apply Qfloor_le | exact Hhi]. }
  lia.
Qed.

(** A point that is [offset] into tile number [n] is in tile [n]. *)
Lemma Qfloor_cell (T offset q : Q) (n : Z) :
  (0 < T)%Q -> (0 <= offset)%Q -> (offset < T)%Q ->
  (q == T * inject_Z n + offset)%Q ->
  Qfloor (q / T) = n.
Proof.
  intros HT Hlo Hhi Hq. apply Qfloor_unique.
  - apply Qle_shift_div_l; [exact HT |]. rewrite Hq. lra.
  - apply Qlt_shift_div_r; [exact HT |]. rewrite Hq, inject_Z_plus.
    change (inject_Z 1) with 1%Q. lra.
Qed.

Lemma wrap360_comp (a b : Q) : (a == b)%Q -> (wrap360 a == wrap360 b)%Q.
Proof.
  intros H. unfold wrap360.
  assert (Hfloor : Qfloor (a / 360) = Qfloor (b / 360)).
  { apply Qfloor_comp. apply Qdiv_comp; [exact H | reflexivity]. }
  rewrite Hfloor. apply Qplus_comp; [exact H | reflexivity].
Qed.

Lemma getDiscretizedRotation_comp (m m' : Mouse) :
  (m_currentRotation m == m_currentRotation m')%Q ->
  MouseModel.getDiscretizedRotation m = MouseModel.getDiscretizedRotation m'.
Proof.
  intros H. unfold MouseModel.getDiscretizedRotation, Degrees.
  assert (Hfloor : Qfloor (wrap360 (m_currentRotation m + 45) / 90)
                   = Qfloor (wrap360 (m_currentRotation m' + 45) / 90)).
  { apply Qfloor_comp. apply Qdiv_comp; [| reflexivity].
    apply wrap360_comp. apply Qplus_comp; [exact H | reflexivity]. }
  rewrite Hfloor. reflexivity.
Qed.

Lemma moveForward_case_rotation heading current :
  (snd (fst (moveForward_case heading current)) == canonicalAngle heading)%Q.
Proof. destruct heading; reflexivity. Qed.

(** The statement of C4 as worded: the turns end at the angle that
    [moveForward] gives the heading to the right, or to the left, of the
    heading the mouse had when the call started. *)
Definition turnsReachCanonicalAngle : Prop :=
  forall (fuel : nat) (w w' : World),
    (turnRight fuel w = Returned tt w' ->
     (m_currentRotation (mouse w') == canonicalAngle (rightOf (discretizedRotation w)))%Q /\
     m_currentTranslation (mouse w') = m_currentTranslation (mouse w)) /\
    (turnLeft fuel w = Returned tt w' ->
     (m_currentRotation (mouse w') == canonicalAngle (leftOf (discretizedRotation w)))%Q /\
     m_currentTranslation (mouse w') = m_currentTranslation (mouse w)).

(** ** Properties *)

(** C1: whatever the interface type and whatever the gated operation,
    a call made while the process-wide interface type is not the one
    the operation requires prints one line that names the operation and
    the required mode and ends the run there, with nothing else in the
    world changed: the body of the operation is never entered. *)
Theorem mode_mismatch_is_fatal (fuel : nat) (op : GatedOperation) (w : World) :
  interfaceType (sim w) <> requiredInterface op ->
  call fuel op w = Stopped QUIT (with_printed (printed w ++ [modeMismatch op]) w).
Proof.
  intros Hmode.
  destruct op; simpl in Hmode;
    unfold call, setWheelSpeeds, read, readGyro, wallFront, wallLeft, wallRight,
      moveForward, turnLeft, turnRight, turnAround,
      ENSURE_DISCRETE_INTERFACE, ENSURE_CONTINUOUS_INTERFACE,
      ensureDiscreteInterface, ensureContinuousInterface, bind, get;
    destruct (interfaceType (sim w)); try congruence; reflexivity.
Qed.

(** C3: in every state in which [wallFront] returns true, [moveForward]
    returns with the crashed flag set, the mouse (translation, rotation
    and wheel speeds) as it was and no command sent to it; a second
    [moveForward] from there returns again, with the crashed flag still
    set and the mouse still as it was. *)
Theorem moveForward_into_wall (fuel : nat) (w w0 : World) :
  wallFront w = Returned true w0 ->
  exists w1 w2,
    moveForward fuel w = Returned tt w1 /\
    crashed (sim w1) = true /\ mouse w1 = mouse w /\ trace w1 = trace w /\
    moveForward fuel w1 = Returned tt w2 /\
    crashed (sim w2) = true /\ mouse w2 = mouse w /\ trace w2 = trace w.
Proof.
  intros Hfront.
  apply wallFront_Returned in Hfront as (Hdef & Hwall & _). symmetry in Hwall.
  destruct (moveForward_crash fuel w Hdef Hwall) as (w1 & Hrun1 & Hc1 & Hi1 & Hm1 & Ht1).
  assert (Hdef1 : wallFrontDefined w1) by (eapply wallFrontDefined_same; eauto).
  assert (Hwall1 : wallAhead w1 = true) by (rewrite (wallAhead_same w w1 Hm1); exact Hwall).
  destruct (moveForward_crash fuel w1 Hdef1 Hwall1) as (w2 & Hrun2 & Hc2 & _ & Hm2 & Ht2).
  exists w1, w2. repeat split; auto; congruence.
Qed.

(** C10: from every pose, [resetPosition] sends exactly one teleport, to
    the mouse's initial translation and to the rotation [Radians(0.0)],
    which is the angle zero; the initial rotation of the mouse plays no
    part, and nothing but the pose of the mouse changes. *)
Theorem resetPosition_teleports_to_zero (w : World) :
  exists w',
    resetPosition w = Returned tt w' /\
    m_currentTranslation (mouse w') = m_initialTranslation (mouse w) /\
    m_currentRotation (mouse w') = Radians_0 /\
    (Radians_0 == 0)%Q /\
    m_initialRotation (mouse w') = m_initialRotation (mouse w) /\
    trace w' = (trace w ++ [CmdTeleport (m_initialTranslation (mouse w)) Radians_0])%list /\
    sim w' = sim w /\ graphic w' = graphic w.
Proof.
  eexists. split; [reflexivity |]. simpl. repeat split.
Qed.

(** C8: for a button number from 0 to 9, [acknowledgeInputButtonPressed]
    returns with the pressed flag of that button false, and
    [inputButtonPressed] then returns false and changes nothing, so it
    keeps returning false for as long as nothing else presses the button;
    for a number outside 0 to 9, [inputButtonPressed] returns false,
    [acknowledgeInputButtonPressed] returns, and both leave every button
    flag (and all else but the console) as it was. *)
Theorem input_button_round_trip (k : Z) (w : World) :
  (0 <= k <= 9 ->
   exists w',
     acknowledgeInputButtonPressed k w = Returned tt w' /\
     StateModel.inputButtonWasPressed k (sim w') = false /\
     inputButtonPressed k w' = Returned false w') /\
  (k < 0 \/ 9 < k ->
   exists w1 w2,
     inputButtonPressed k w = Returned false w1 /\
     acknowledgeInputButtonPressed k w = Returned tt w2 /\
     sim w1 = sim w /\ sim w2 = sim w /\
     mouse w1 = mouse w /\ mouse w2 = mouse w /\
     graphic w1 = graphic w /\ graphic w2 = graphic w).
Proof.
  unfold acknowledgeInputButtonPressed, inputButtonPressed.
  split; intros Hk.
  - assert (Hc : (k <? 0) || (9 <? k) = false).
    { apply orb_false_intro; [apply Z.ltb_ge | apply Z.ltb_ge]; lia. }
    rewrite Hc. eexists; split; [reflexivity |].
    assert (Hflag : StateModel.inputButtonWasPressed k
              (StateModel.setInputButtonWasPressed k false (sim w)) = false).
    { unfold StateModel.inputButtonWasPressed, StateModel.setInputButtonWasPressed; simpl.
      rewrite lookup_insert_eq. reflexivity. }
    split; [exact Hflag |].
    unfold get. simpl. rewrite Hflag. reflexivity.
  - assert (Hc : (k <? 0) || (9 <? k) = true).
    { apply orb_true_iff. destruct Hk; [left; apply Z.ltb_lt | right; apply Z.ltb_lt]; lia. }
    rewrite Hc. do 2 eexists. repeat split.
Qed.

(** C5: in DISCRETE mode [turnAround] is two [turnRight] calls in a row:
    the same outcome, the same final world (heading, position, process
    state) and the same commands and sleeps, those of a right turn twice
    over. *)
Theorem turnAround_is_two_turnRight (fuel : nat) (w : World) :
  interfaceType (sim w) = DISCRETE ->
  turnAround fuel w = (turnRight fuel ;; turnRight fuel) w.
Proof.
  intros Hmode. unfold turnAround, ENSURE_DISCRETE_INTERFACE.
  unfold bind at 1. rewrite (ensureDiscreteInterface_passes _ _ Hmode). reflexivity.
Qed.

(** C6: with the both-wall-halves flag on, [declareWall] on wall [d] of
    the in-bounds tile [(x, y)] writes the same value to the opposing
    wall of the neighbouring tile exactly when that tile is in the maze,
    and [undeclareWall] clears both; when there is no such tile, the
    entry of the would-be opposing wall is left as it was. *)
Theorem both_wall_halves (x y : Z) (c : ascii) (d : Direction) (b : bool) (w : World) :
  withinMaze x y = true ->
  CHAR_TO_DIRECTION !! c = Some d ->
  declareBothWallHalves P = true ->
  exists wd wu,
    declareWall x y c b w = Returned tt wd /\
    undeclareWall x y c w = Returned tt wu /\
    graphic wd =
      (if neighbourExists x y d
       then GraphicModel.declareWall (fst (fst (opposingWall x y d)))
              (snd (fst (opposingWall x y d))) (snd (opposingWall x y d)) b
              (GraphicModel.declareWall x y d b (graphic w))
       else GraphicModel.declareWall x y d b (graphic w)) /\
    graphic wu =
      (if neighbourExists x y d
       then GraphicModel.undeclareWall (fst (fst (opposingWall x y d)))
              (snd (fst (opposingWall x y d))) (snd (opposingWall x y d))
              (GraphicModel.undeclareWall x y d (graphic w))
       else GraphicModel.undeclareWall x y d (graphic w)) /\
    g_declaredWalls (graphic wd) !! (x, y, d) = Some b /\
    g_declaredWalls (graphic wu) !! (x, y, d) = None /\
    g_declaredWalls (graphic wd) !! opposingWall x y d =
      (if neighbourExists x y d then Some b
       else g_declaredWalls (graphic w) !! opposingWall x y d) /\
    g_declaredWalls (graphic wu) !! opposingWall x y d =
      (if neighbourExists x y d then None
       else g_declaredWalls (graphic w) !! opposingWall x y d).
Proof.
  intros Hin Hc Hboth.
  pose proof (opposingWall_differs x y d) as Hne.
  exists (with_graphic
            (if declareBothWallHalves P && neighbourExists x y d
             then GraphicModel.declareWall (fst (fst (opposingWall x y d)))
                    (snd (fst (opposingWall x y d))) (snd (opposingWall x y d)) b
                    (GraphicModel.declareWall x y d b (graphic w))
             else GraphicModel.declareWall x y d b (graphic w)) w).
  exists (with_graphic
            (if declareBothWallHalves P && neighbourExists x y d
             then GraphicModel.undeclareWall (fst (fst (opposingWall x y d)))
                    (snd (fst (opposingWall x y d))) (snd (opposingWall x y d))
                    (GraphicModel.undeclareWall x y d (graphic w))
             else GraphicModel.undeclareWall x y d (graphic w)) w).
  split; [apply declareWall_valid; assumption |].
  split; [apply undeclareWall_valid; assumption |].
  rewrite Hboth. simpl.
  destruct (neighbourExists x y d);
    destruct (opposingWall x y d) as [[ox oy] od]; simpl; repeat split.
  - rewrite lookup_insert_ne by exact Hne. apply lookup_insert_eq.
  - rewrite lookup_delete_ne by exact Hne. apply lookup_delete_eq.
  - apply lookup_insert_eq.
  - apply lookup_delete_eq.
  - apply lookup_insert_eq.
  - apply lookup_delete_eq.
  - apply lookup_insert_ne. congruence.
  - apply lookup_delete_ne. congruence.
Qed.


(** C7: whenever [moveForward], [turnRight] or [turnLeft] returns, it
    is either a [moveForward] that found a wall ahead and sent nothing,
    or the run was this: the loop of the motion started (for a
    [moveForward], in the world [wallFront] returned false in) and
    returned in a world [w1] in which the condition of the loop is
    false, having added wheel commands and sleeps but no teleport to the
    trace; then, from that very [w1], both wheel speeds were set to zero
    and the one teleport, to the destination fixed at the start, was
    sent, and that gave the world the motion returned.  Replayed from
    the wheel speeds at the start, no teleport of the run comes while a
    commanded wheel speed is other than zero. *)
Theorem teleport_only_after_stop (fuel : nat) (m : Motion) (w w' : World) :
  run fuel m w = Returned tt w' ->
  exists es,
    trace w' = (trace w ++ es)%list /\
    teleportsAtRest (m_leftWheelSpeed (mouse w)) (m_rightWheelSpeed (mouse w)) es = true /\
    ((m = MoveForward /\ wallAhead w = true /\ es = [] /\ mouse w' = mouse w) \/
     exists w0 w1 es0,
       loopStart m w w0 /\
       while fuel (snd (plan m w)) (loopBody fuel m) w0 = Returned tt w1 /\
       snd (plan m w) w1 = false /\
       trace w1 = (trace w ++ es0)%list /\
       noTeleport es0 = true /\
       (Mouse_setWheelSpeeds 0 0 ;;
        Mouse_teleport (fst (fst (plan m w))) (snd (fst (plan m w)))) w1
       = Returned tt w' /\
       es = (es0 ++ [CmdSetWheelSpeeds 0 0;
                     CmdTeleport (fst (fst (plan m w))) (snd (fst (plan m w)))])%list /\
       (m_leftWheelSpeed (mouse w') == 0)%Q /\ (m_rightWheelSpeed (mouse w') == 0)%Q).
Proof.
  intros H.
  apply motion_loop in H
    as [(Hm & Hwall & Hmouse & Ht) | (w0 & w1 & Hstart & Hsame & Hloop & Hend)].
  - exists []. rewrite app_nil_r. split; [exact Ht |]. split; [reflexivity |].
    left. auto.
  - destruct (quietly_while fuel _ _ (quietly_loopBody fuel m) _ _ _ Hloop)
      as (es0 & Hes0 & Hno).
    destruct Hsame as (_ & _ & Ht0). rewrite Ht0 in Hes0.
    pose proof (while_exit _ _ _ _ _ Hloop) as Hexit.
    destruct (stop_and_teleport _ _ _ _ Hend) as (Hm & _ & Ht).
    eexists. split; [| split].
    + rewrite Ht, Hes0, <- app_assoc. reflexivity.
    + apply teleportsAtRest_after_stop. exact Hno.
    + right. exists w0, w1, es0. rewrite Hm. simpl. repeat split; auto.
Qed.

(** C2: with a tile length above zero and the initial translation of
    the mouse inside the tile at the origin, whenever [wallFront] returns
    false and [moveForward] returns, the mouse is at the destination that
    was computed (the initial translation moved by a whole number of
    tiles), its discretized translation is the cell one tile ahead along
    the heading it had, and its discretized rotation is that heading. *)
Theorem moveForward_round_trip (fuel : nat) (w w0 w' : World) :
  (0 < tileLength)%Q ->
  startsInOriginTile w ->
  wallFront w = Returned false w0 ->
  moveForward fuel w = Returned tt w' ->
  discretizedTranslation w' = cellAhead (discretizedTranslation w) (discretizedRotation w) /\
  discretizedRotation w' = discretizedRotation w /\
  m_currentTranslation (mouse w') = fst (fst (moveForward_plan w)) /\
  m_currentRotation (mouse w') = snd (fst (moveForward_plan w)) /\
  (getX (m_currentTranslation (mouse w')) ==
     tileLength * inject_Z (fst (cellAhead (discretizedTranslation w) (discretizedRotation w)))
     + getX (m_initialTranslation (mouse w)))%Q /\
  (getY (m_currentTranslation (mouse w')) ==
     tileLength * inject_Z (snd (cellAhead (discretizedTranslation w) (discretizedRotation w)))
     + getY (m_initialTranslation (mouse w)))%Q /\
  (m_currentRotation (mouse w') == canonicalAngle (discretizedRotation w))%Q.
Proof.
  intros HT (Hx0 & Hx1 & Hy0 & Hy1) Hfront Hrun.
  apply wallFront_Returned in Hfront as (_ & Hwall & _).
  apply (motion_Returned fuel MoveForward) in Hrun
    as [_ [(_ & _ & Hwall' & _) | (_ & w1 & _ & _ & Hm & _)]]; [congruence |].
  simpl in Hm.
  assert (Hpos : m_currentTranslation (mouse w') = fst (fst (moveForward_plan w)))
    by (rewrite Hm; reflexivity).
  assert (Hrot : m_currentRotation (mouse w') = snd (fst (moveForward_plan w)))
    by (rewrite Hm; reflexivity).
  assert (Hxy :
    (getX (fst (fst (moveForward_plan w))) ==
       tileLength * inject_Z (fst (cellAhead (discretizedTranslation w) (discretizedRotation w)))
       + getX (m_initialTranslation (mouse w)))%Q /\
    (getY (fst (fst (moveForward_plan w))) ==
       tileLength * inject_Z (snd (cellAhead (discretizedTranslation w) (discretizedRotation w)))
       + getY (m_initialTranslation (mouse w)))%Q).
  { unfold moveForward_plan.
    destruct (discretizedRotation w);
      cbn [moveForward_case Cartesian_add cellAhead getX getY fst snd];
      unfold Z.sub; rewrite ?inject_Z_plus;
      change (inject_Z (- (1))) with (- (1))%Q; change (inject_Z 1) with 1%Q;
      split; ring. }
  destruct Hxy as [HX HY].
  assert (Hcanon : (snd (fst (moveForward_plan w)) == canonicalAngle (discretizedRotation w))%Q)
    by apply moveForward_case_rotation.
  repeat split.
  - unfold discretizedTranslation at 1, MouseModel.getDiscretizedTranslation.
    rewrite Hpos.
    rewrite (Qfloor_cell tileLength _ _ _ HT Hx0 Hx1 HX).
    rewrite (Qfloor_cell tileLength _ _ _ HT Hy0 Hy1 HY).
    destruct (discretizedRotation w); reflexivity.
  - unfold discretizedRotation at 1.
    transitivity (MouseModel.getDiscretizedRotation
                    (MouseModel.teleport (0, 0)%Q (canonicalAngle (discretizedRotation w))
                       (mouse w))).
    + apply getDiscretizedRotation_comp. rewrite Hrot. exact Hcanon.
    + destruct (discretizedRotation w); reflexivity.
  - exact Hpos.
  - exact Hrot.
  - rewrite Hpos. exact HX.
  - rewrite Hpos. exact HY.
  - rewrite Hrot. exact Hcanon.
Qed.

(** C4 (amended): whenever [turnRight] or [turnLeft] returns, the mouse
    is at the translation it had when the call started and at the
    rotation it had then minus, or plus, 90 degrees (wrapped into the
    range from 0 to 360); when that starting rotation was the angle
    [moveForward] gives the starting heading, the new rotation is the
    angle of the heading to its right, or left, and discretizes to it. *)
Theorem turn_teleports_a_quarter_turn (fuel : nat) (w w' : World) :
  (turnRight fuel w = Returned tt w' ->
   m_currentTranslation (mouse w') = m_currentTranslation (mouse w) /\
   m_currentRotation (mouse w') = Angle_sub (m_currentRotation (mouse w)) (Degrees 90) /\
   ((m_currentRotation (mouse w) == canonicalAngle (discretizedRotation w))%Q ->
    (m_currentRotation (mouse w') == canonicalAngle (rightOf (discretizedRotation w)))%Q /\
    discretizedRotation w' = rightOf (discretizedRotation w))) /\
  (turnLeft fuel w = Returned tt w' ->
   m_currentTranslation (mouse w') = m_currentTranslation (mouse w) /\
   m_currentRotation (mouse w') = Angle_add (m_currentRotation (mouse w)) (Degrees 90) /\
   ((m_currentRotation (mouse w) == canonicalAngle (discretizedRotation w))%Q ->
    (m_currentRotation (mouse w') == canonicalAngle (leftOf (discretizedRotation w)))%Q /\
    discretizedRotation w' = leftOf (discretizedRotation w))).
Proof.
  split; intros Hrun.
  - apply (motion_Returned fuel TurnRight) in Hrun
      as [_ [(Habs & _) | (_ & w1 & _ & _ & Hm & _)]]; [discriminate |].
    simpl in Hm.
    assert (Hrot : m_currentRotation (mouse w')
                   = Angle_sub (m_currentRotation (mouse w)) (Degrees 90))
      by (rewrite Hm; reflexivity).
    split; [rewrite Hm; reflexivity |]. split; [exact Hrot |].
    intros Hcanon.
    assert (Hnew : (m_currentRotation (mouse w')
                    == canonicalAngle (rightOf (discretizedRotation w)))%Q).
    { rewrite Hrot. unfold Angle_sub, Degrees.
      transitivity (wrap360 (canonicalAngle (discretizedRotation w) - wrap360 90)).
      - apply wrap360_comp. apply Qplus_comp; [exact Hcanon | reflexivity].
      - destruct (discretizedRotation w); reflexivity. }
    split; [exact Hnew |].
    unfold discretizedRotation at 1.
    transitivity (MouseModel.getDiscretizedRotation
                    (MouseModel.teleport (0, 0)%Q
                       (canonicalAngle (rightOf (discretizedRotation w))) (mouse w))).
    + apply getDiscretizedRotation_comp. exact Hnew.
    + destruct (discretizedRotation w); reflexivity.
  - apply (motion_Returned fuel TurnLeft) in Hrun
      as [_ [(Habs & _) | (_ & w1 & _ & _ & Hm & _)]]; [discriminate |].
    simpl in Hm.
    assert (Hrot : m_currentRotation (mouse w')
                   = Angle_add (m_currentRotation (mouse w)) (Degrees 90))
      by (rewrite Hm; reflexivity).
    split; [rewrite Hm; reflexivity |]. split; [exact Hrot |].
    intros Hcanon.
    assert (Hnew : (m_currentRotation (mouse w')
                    == canonicalAngle (leftOf (discretizedRotation w)))%Q).
    { rewrite Hrot. unfold Angle_add, Degrees.
      transitivity (wrap360 (canonicalAngle (discretizedRotation w) + wrap360 90)).
      - apply wrap360_comp. apply Qplus_comp; [exact Hcanon | reflexivity].
      - destruct (discretizedRotation w); reflexivity. }
    split; [exact Hnew |].
    unfold discretizedRotation at 1.
    transitivity (MouseModel.getDiscretizedRotation
                    (MouseModel.teleport (0, 0)%Q
                       (canonicalAngle (leftOf (discretizedRotation w))) (mouse w))).
    + apply getDiscretizedRotation_comp. exact Hnew.
    + destruct (discretizedRotation w); reflexivity.
Qed.

(** ** Further properties of the facade *)

(** *** Tile colours *)

Lemma setTileColor_valid x y c col w :
  withinMaze x y = true -> CHAR_TO_COLOR !! c = Some col ->
  setTileColor x y c w
  = Returned tt
      (with_tilesWithColor ({[(x, y)]} ∪ m_tilesWithColor w)
         (with_graphic (GraphicModel.setTileColor x y col (graphic w)) w)).
Proof.
  intros Hin Hc. unfold setTileColor, mapContains. rewrite Hin, Hc.
  rewrite bool_decide_eq_true_2 by eauto. simpl.
  unfold bind, at_. rewrite Hc. reflexivity.
Qed.

Lemma clearTileColor_valid x y base w :
  withinMaze x y = true -> STRING_TO_COLOR !! tileBaseColor P = Some base ->
  clearTileColor x y w
  = Returned tt
      (with_tilesWithColor (m_tilesWithColor w ∖ {[(x, y)]})
         (with_graphic (GraphicModel.setTileColor x y base (graphic w)) w)).
Proof.
  intros Hin Hb. unfold clearTileColor. rewrite Hin. simpl.
  unfold bind, at_. rewrite Hb. reflexivity.
Qed.

(** The loop of [clearAllTileColor] over a list of positions. *)
Definition paintAll (positions : list (Z * Z)) : M unit :=
  foldr (fun position rest =>
           c <- at_ STRING_TO_COLOR (tileBaseColor P) ;;
           MazeGraphic_do (GraphicModel.setTileColor (fst position) (snd position) c) ;;
           rest)
        (ret tt) positions.

(** all but the colour overlay is the same *)
Definition sameButColors (w w' : World) : Prop :=
  mouse w' = mouse w /\ sim w' = sim w /\ trace w' = trace w /\
  printed w' = printed w /\ logged w' = logged w /\
  m_tilesWithColor w' = m_tilesWithColor w /\
  g_declaredWalls (graphic w') = g_declaredWalls (graphic w) /\
  g_tileFogginess (graphic w') = g_tileFogginess (graphic w) /\
  g_tileText (graphic w') = g_tileText (graphic w).

Lemma paintAll_returns base positions :
  STRING_TO_COLOR !! tileBaseColor P = Some base ->
  forall w, exists w',
    paintAll positions w = Returned tt w' /\ sameButColors w w' /\
    forall p, g_tileColor (graphic w') !! p
              = if bool_decide (p ∈ positions) then Some base
                else g_tileColor (graphic w) !! p.
Proof.
  intros Hb. induction positions as [| q rest IH]; intros w.
  - exists w. split; [reflexivity |]. split; [repeat split |].
    intros p. rewrite bool_decide_eq_false_2; [reflexivity | apply not_elem_of_nil].
  - destruct q as [qx qy]. simpl.
    unfold bind at 1. unfold at_. rewrite Hb. unfold ret at 1.
    unfold bind at 1. unfold MazeGraphic_do at 1. unfold modify at 1.
    destruct (IH (with_graphic (GraphicModel.setTileColor qx qy base (graphic w)) w))
      as (w' & Hrun & Hsame & Hcol).
    exists w'. split; [exact Hrun |]. split.
    + unfold sameButColors in *. simpl in Hsame. tauto.
    + intros p. rewrite Hcol. simpl.
      destruct (decide (p = (qx, qy))) as [-> | Hne].
      * rewrite lookup_insert_eq.
        rewrite (bool_decide_eq_true_2 ((qx, qy) ∈ (qx, qy) :: rest))
          by apply list_elem_of_here.
        destruct (bool_decide ((qx, qy) ∈ rest)); reflexivity.
      * rewrite lookup_insert_ne by congruence.
        destruct (bool_decide (p ∈ rest)) eqn:Hrest.
        -- apply bool_decide_eq_true in Hrest.
           rewrite bool_decide_eq_true_2; [reflexivity |].
           apply list_elem_of_further. exact Hrest.
        -- apply bool_decide_eq_false in Hrest.
           rewrite bool_decide_eq_false_2; [reflexivity |].
           intros Hin. apply elem_of_cons in Hin as [-> | Hin]; auto.
Qed.

(** X1: on a tile of the maze, [setTileColor] with a mapped character
    gives the tile that colour and records the tile as coloured;
    [clearTileColor] then gives it the base colour and forgets it; the
    colours and the records of all other tiles are as before the pair of
    calls. *)
Theorem tile_color_round_trip (x y : Z) (c : ascii) (col base : Color) (w : World) :
  withinMaze x y = true ->
  CHAR_TO_COLOR !! c = Some col ->
  STRING_TO_COLOR !! tileBaseColor P = Some base ->
  exists w1 w2,
    setTileColor x y c w = Returned tt w1 /\
    ((x, y) ∈ m_tilesWithColor w1) /\
    g_tileColor (graphic w1) !! (x, y) = Some col /\
    clearTileColor x y w1 = Returned tt w2 /\
    ((x, y) ∉ m_tilesWithColor w2) /\
    g_tileColor (graphic w2) !! (x, y) = Some base /\
    (forall p, p <> (x, y) ->
       (p ∈ m_tilesWithColor w2 <-> p ∈ m_tilesWithColor w) /\
       g_tileColor (graphic w2) !! p = g_tileColor (graphic w) !! p).
Proof.
  intros Hin Hc Hb.
  eexists. eexists.
  split; [apply setTileColor_valid; eassumption |].
  split; [simpl; apply elem_of_union_l, elem_of_singleton; reflexivity |].
  split; [simpl; apply lookup_insert_eq |].
  split; [apply clearTileColor_valid; eassumption |].
  split.
  { simpl. rewrite elem_of_difference, elem_of_singleton. tauto. }
  split; [simpl; apply lookup_insert_eq |].
  intros p Hne. simpl. split.
  - rewrite elem_of_difference, elem_of_union, !elem_of_singleton. tauto.
  - rewrite !lookup_insert_ne by congruence. reflexivity.
Qed.

(** X2: when the configured base colour has no entry in
    [STRING_TO_COLOR], [clearTileColor] on a tile of the maze and
    [clearAllTileColor] with at least one coloured tile end in the
    out-of-range failure of [std::map::at], with the world as it was;
    [clearAllTileColor] with no coloured tile returns with the world as
    it was. *)
Theorem unmapped_base_color (x y : Z) (w : World) :
  STRING_TO_COLOR !! tileBaseColor P = None ->
  (withinMaze x y = true -> clearTileColor x y w = Stopped OUT_OF_RANGE w) /\
  (m_tilesWithColor w <> ∅ -> clearAllTileColor w = Stopped OUT_OF_RANGE w) /\
  (m_tilesWithColor w = ∅ -> clearAllTileColor w = Returned tt w).
Proof.
  intros Hb. split; [| split].
  - intros Hin. unfold clearTileColor. rewrite Hin. simpl.
    unfold bind, at_. rewrite Hb. reflexivity.
  - intros Hne. unfold clearAllTileColor, bind, get.
    destruct (elements (m_tilesWithColor w)) as [| q rest] eqn:He.
    + apply elements_empty_inv in He. apply leibniz_equiv in He. contradiction.
    + simpl. unfold bind, at_. rewrite Hb. reflexivity.
  - intros He. unfold clearAllTileColor, bind, get. rewrite He, elements_empty. simpl.
    unfold modify. f_equal. destruct w; simpl in *. subst. reflexivity.
Qed.

(** X3: when the base colour is mapped, [clearAllTileColor] returns with
    no tile recorded as coloured, the base colour on every tile that was
    recorded, and the colour of every other tile, like all the rest of
    the world, as it was. *)
Theorem clearAllTileColor_clears (base : Color) (w : World) :
  STRING_TO_COLOR !! tileBaseColor P = Some base ->
  exists w',
    clearAllTileColor w = Returned tt w' /\
    m_tilesWithColor w' = ∅ /\
    (forall p, p ∈ m_tilesWithColor w -> g_tileColor (graphic w') !! p = Some base) /\
    (forall p, p ∉ m_tilesWithColor w ->
       g_tileColor (graphic w') !! p = g_tileColor (graphic w) !! p) /\
    mouse w' = mouse w /\ sim w' = sim w /\ trace w' = trace w /\
    printed w' = printed w /\ logged w' = logged w /\
    g_declaredWalls (graphic w') = g_declaredWalls (graphic w) /\
    g_tileFogginess (graphic w') = g_tileFogginess (graphic w) /\
    g_tileText (graphic w') = g_tileText (graphic w).
Proof.
  intros Hb.
  destruct (paintAll_returns base (elements (m_tilesWithColor w)) Hb w)
    as (w1 & Hrun & Hsame & Hcol).
  exists (with_tilesWithColor ∅ w1). split.
  - change (clearAllTileColor w)
      with (bind (paintAll (elements (m_tilesWithColor w)))
              (fun _ => modify (with_tilesWithColor ∅)) w).
    unfold bind. rewrite Hrun. reflexivity.
  - simpl. split; [reflexivity |]. split; [| split].
    + intros p Hp. rewrite Hcol. rewrite bool_decide_eq_true_2; [reflexivity |].
      apply elem_of_elements. exact Hp.
    + intros p Hp. rewrite Hcol. rewrite bool_decide_eq_false_2; [reflexivity |].
      rewrite elem_of_elements. exact Hp.
    + unfold sameButColors in Hsame. tauto.
Qed.

(** The calls that write the colour overlay. *)
Inductive ColorCall :=
| CSetTileColor (x y : Z) (color : ascii)
| CClearTileColor (x y : Z)
| CClearAllTileColor.

Definition colorCall (c : ColorCall) : M unit :=
  match c with
  | CSetTileColor x y color => setTileColor x y color
  | CClearTileColor x y => clearTileColor x y
  | CClearAllTileColor => clearAllTileColor
  end.

(** every tile recorded as coloured is a tile of the maze *)
Definition coloredTilesInMaze (w : World) : Prop :=
  forall p, p ∈ m_tilesWithColor w -> withinMaze (fst p) (snd p) = true.

(** X4: the record of coloured tiles only ever holds tiles of the maze:
    whichever colour call returns, and with whatever arguments, it keeps
    that so. *)
Theorem colored_tiles_stay_in_maze (c : ColorCall) (w w' : World) :
  coloredTilesInMaze w ->
  colorCall c w = Returned tt w' ->
  coloredTilesInMaze w'.
Proof.
  intros Hinv. destruct c as [x y color | x y |]; simpl.
  - unfold setTileColor. destruct (withinMaze x y) eqn:Hin; simpl.
    + destruct (mapContains CHAR_TO_COLOR color); simpl.
      * intros H. apply bind_Returned in H as (col & w1 & Hat & H).
        unfold at_ in Hat. destruct (CHAR_TO_COLOR !! color); [| discriminate].
        inversion Hat; subst. inversion H; subst.
        intros p Hp. simpl in Hp. apply elem_of_union in Hp as [Hp | Hp]; [| auto].
        apply elem_of_singleton in Hp. subst p. exact Hin.
      * destruct WIN32; intros H; inversion H; subst; exact Hinv.
    + destruct WIN32; intros H; inversion H; subst; exact Hinv.
  - unfold clearTileColor. destruct (withinMaze x y) eqn:Hin; simpl.
    + intros H. apply bind_Returned in H as (col & w1 & Hat & H).
      unfold at_ in Hat. destruct (STRING_TO_COLOR !! tileBaseColor P); [| discriminate].
      inversion Hat; subst. inversion H; subst.
      intros p Hp. simpl in Hp. apply elem_of_difference in Hp as [Hp _]. auto.
    + destruct WIN32; intros H; inversion H; subst; exact Hinv.
  - unfold clearAllTileColor. intros H.
    apply bind_Returned in H as (positions & w1 & _ & H).
    apply bind_Returned in H as ([] & w2 & _ & H).
    inversion H; subst. intros p Hp. simpl in Hp. apply elem_of_empty in Hp as [].
Qed.

(** *** Annotation is presentational *)

(** The annotation calls, with [clearAllTileColor] among them. *)
Inductive Presentation :=
| PAnnotate (a : Annotation)
| PClearAllTileColor.

Definition present (p : Presentation) : M unit :=
  match p with
  | PAnnotate a => annotate a
  | PClearAllTileColor => clearAllTileColor
  end.

(** A call has ended harmlessly when it has returned, or failed on a
    missing table entry, in a world whose mouse, process-wide state and
    trace of commands are those of [w]. *)
Definition endedHarmlessly (w : World) (o : Outcome unit) : Prop :=
  match o with
  | Returned _ w' | Stopped OUT_OF_RANGE w' => sameSimulation w w'
  | _ => False
  end.

Lemma undeclareWall_returns x y c w :
  exists w', undeclareWall x y c w = Returned tt w' /\ sameSimulation w w'.
Proof.
  unfold undeclareWall.
  destruct (withinMaze x y); simpl; [| eexists; split; [reflexivity | repeat split]].
  destruct (mapContains CHAR_TO_DIRECTION c) eqn:Hc; simpl;
    [| eexists; split; [reflexivity | repeat split]].
  destruct (at_mapContains CHAR_TO_DIRECTION c w Hc) as (d & _ & Hat).
  unfold bind at 1. rewrite Hat.
  unfold bind at 1. unfold MazeGraphic_do at 1. unfold modify at 1.
  destruct (declareBothWallHalves P && hasOpposingWall x y d) eqn:Hopp.
  - apply andb_prop in Hopp as [_ Hopp].
    edestruct (getOpposingWall_returns x y d) as [o Ho]; [exact Hopp |].
    unfold bind. rewrite Ho. eexists; split; [reflexivity | repeat split].
  - eexists; split; [reflexivity | repeat split].
Qed.

Lemma paintAll_harmless positions : forall w, endedHarmlessly w (paintAll positions w).
Proof.
  induction positions as [| q rest IH]; intros w; simpl.
  - repeat split.
  - unfold bind at 1. unfold at_.
    destruct (STRING_TO_COLOR !! tileBaseColor P) as [base |]; simpl; [| repeat split].
    unfold bind at 1. unfold MazeGraphic_do at 1. unfold modify at 1.
    specialize (IH (with_graphic
                      (GraphicModel.setTileColor (fst q) (snd q) base (graphic w)) w)).
    fold (paintAll rest).
    destruct (paintAll rest _) as [[] w' | [] w' |]; simpl in *; tauto.
Qed.

(** X5: no annotation call, whatever its arguments, changes the mouse,
    the process-wide state or the trace of commands, asks for the run to
    end, fails an assertion or loops: it returns, or it fails on a colour
    that is missing from a table. *)
Theorem annotation_is_presentational (p : Presentation) (w : World) :
  endedHarmlessly w (present p w).
Proof.
  destruct p as [a |]; simpl.
  - destruct a; simpl.
    + unfold setTileColor. destruct (withinMaze x y); simpl.
      * destruct (mapContains CHAR_TO_COLOR color); simpl.
        -- unfold bind, at_. destruct (CHAR_TO_COLOR !! color); simpl; repeat split.
        -- destruct WIN32; simpl; repeat split.
      * destruct WIN32; simpl; repeat split.
    + unfold clearTileColor. destruct (withinMaze x y); simpl.
      * unfold bind, at_.
        destruct (STRING_TO_COLOR !! tileBaseColor P); simpl; repeat split.
      * destruct WIN32; simpl; repeat split.
    + destruct (declareWall_returns x y direction wallExists w) as (w' & -> & Hs).
      exact Hs.
    + destruct (undeclareWall_returns x y direction w) as (w' & -> & Hs). exact Hs.
    + unfold setTileFogginess. destruct (withinMaze x y); simpl; [| repeat split].
      destruct (algorithmControlsTileFog P); simpl; repeat split.
    + unfold declareTileDistance. destruct (withinMaze x y); simpl; repeat split.
    + unfold undeclareTileDistance. destruct (withinMaze x y); simpl; repeat split.
  - change (clearAllTileColor w)
      with (bind (paintAll (elements (m_tilesWithColor w)))
              (fun _ => modify (with_tilesWithColor ∅)) w).
    pose proof (paintAll_harmless (elements (m_tilesWithColor w)) w) as H.
    unfold bind.
    destruct (paintAll (elements (m_tilesWithColor w)) w) as [[] w' | [] w' |];
      simpl in *; tauto.
Qed.

(** The overlay a call writes to. *)
Inductive Overlay := Colors | Walls | Fog | Text.

Definition overlayOf (a : Annotation) : Overlay :=
  match a with
  | ASetTileColor _ _ _ | AClearTileColor _ _ => Colors
  | ADeclareWall _ _ _ _ | AUndeclareWall _ _ _ => Walls
  | ASetTileFogginess _ _ _ => Fog
  | ADeclareTileDistance _ _ _ | AUndeclareTileDistance _ _ => Text
  end.

(** X6: an annotation call that returns has written to no overlay but
    its own, and [setTileFogginess] has not written to the fog overlay
    either unless the algorithm controls the fog. *)
Theorem annotation_writes_its_own_overlay (a : Annotation) (w w' : World) :
  annotate a w = Returned tt w' ->
  (overlayOf a <> Colors ->
   g_tileColor (graphic w') = g_tileColor (graphic w) /\
   m_tilesWithColor w' = m_tilesWithColor w) /\
  (overlayOf a <> Walls -> g_declaredWalls (graphic w') = g_declaredWalls (graphic w)) /\
  (overlayOf a <> Fog \/ algorithmControlsTileFog P = false ->
   g_tileFogginess (graphic w') = g_tileFogginess (graphic w)) /\
  (overlayOf a <> Text -> g_tileText (graphic w') = g_tileText (graphic w)).
Proof.
  destruct a; simpl; intros H.
  - unfold setTileColor in H.
    destruct (withinMaze x y), (mapContains CHAR_TO_COLOR color), WIN32; simpl in H;
      try (apply bind_Returned in H as (col & w1 & Hat & H); unfold at_ in Hat;
           destruct (CHAR_TO_COLOR !! color); [| discriminate];
           inversion Hat; subst);
      inversion H; subst; simpl; repeat split; auto; try congruence.
  - unfold clearTileColor in H.
    destruct (withinMaze x y), WIN32; simpl in H;
      try (apply bind_Returned in H as (col & w1 & Hat & H); unfold at_ in Hat;
           destruct (STRING_TO_COLOR !! tileBaseColor P); [| discriminate];
           inversion Hat; subst);
      inversion H; subst; simpl; repeat split; auto; try congruence.
  - destruct (withinMaze x y) eqn:Hin;
      [| unfold declareWall in H; rewrite Hin in H; simpl in H;
         inversion H; subst; simpl; repeat split; auto; congruence].
    destruct (CHAR_TO_DIRECTION !! direction) as [d |] eqn:Hd.
    + rewrite (declareWall_valid x y direction d wallExists w Hin Hd) in H.
      inversion H; subst.
      destruct (declareBothWallHalves P && neighbourExists x y d);
        simpl; repeat split; auto; congruence.
    + unfold declareWall, mapContains in H. rewrite Hin, Hd in H.
      rewrite bool_decide_eq_false_2 in H by (intros [? ?]; discriminate).
      simpl in H. inversion H; subst; simpl; repeat split; auto; congruence.
  - destruct (withinMaze x y) eqn:Hin;
      [| unfold undeclareWall in H; rewrite Hin in H; simpl in H;
         inversion H; subst; simpl; repeat split; auto; congruence].
    destruct (CHAR_TO_DIRECTION !! direction) as [d |] eqn:Hd.
    + rewrite (undeclareWall_valid x y direction d w Hin Hd) in H.
      inversion H; subst.
      destruct (declareBothWallHalves P && neighbourExists x y d);
        simpl; repeat split; auto; congruence.
    + unfold undeclareWall, mapContains in H. rewrite Hin, Hd in H.
      rewrite bool_decide_eq_false_2 in H by (intros [? ?]; discriminate).
      simpl in H. inversion H; subst; simpl; repeat split; auto; congruence.
  - unfold setTileFogginess in H.
    destruct (withinMaze x y); simpl in H;
      [| inversion H; subst; simpl; repeat split; auto; congruence].
    destruct (algorithmControlsTileFog P) eqn:Hfog; simpl in H;
      inversion H; subst; simpl; repeat split; auto; try congruence.
    intros [Habs | Habs]; congruence.
  - unfold declareTileDistance in H.
    destruct (withinMaze x y); simpl in H;
      inversion H; subst; simpl; repeat split; auto; congruence.
  - unfold undeclareTileDistance in H.
    destruct (withinMaze x y); simpl in H;
      inversion H; subst; simpl; repeat split; auto; congruence.
Qed.

(** *** Walls *)

Lemma opposingWall_involutive x y d :
  opposingWall (fst (fst (opposingWall x y d))) (snd (fst (opposingWall x y d)))
    (snd (opposingWall x y d)) = (x, y, d).
Proof. destruct d; simpl; f_equal; f_equal; lia. Qed.

Lemma getOpposingWall_run x y d w :
  hasOpposingWall x y d = true ->
  getOpposingWall x y d w = Returned (opposingWall x y d) w.
Proof.
  intros H. unfold getOpposingWall, bind, ASSERT. rewrite H. destruct d; reflexivity.
Qed.

(** X7: for a tile of the maze that has a neighbour across wall [d],
    [getOpposingWall] returns a tile of the maze that in turn has a
    neighbour across the wall returned, and [getOpposingWall] on that
    tile and wall returns the tile and wall it started from; on a wall
    with no neighbour across it its assertion fails. *)
Theorem getOpposingWall_involution (x y : Z) (d : Direction) (w : World) :
  (withinMaze x y = true -> hasOpposingWall x y d = true ->
   exists x' y' d',
     getOpposingWall x y d w = Returned (x', y', d') w /\
     withinMaze x' y' = true /\
     hasOpposingWall x' y' d' = true /\
     getOpposingWall x' y' d' w = Returned (x, y, d) w) /\
  (hasOpposingWall x y d = false ->
   getOpposingWall x y d w = Stopped ASSERT_FAILED w).
Proof.
  split.
  - intros Hin Hopp.
    pose proof (hasOpposingWall_neighbourExists x y d Hin) as Hn.
    rewrite Hopp in Hn. symmetry in Hn. unfold neighbourExists in Hn.
    pose proof (opposingWall_involutive x y d) as Hinv.
    destruct (opposingWall x y d) as [[x' y'] d'] eqn:Ho. simpl in *.
    assert (Hback : hasOpposingWall x' y' d' = true).
    { rewrite (hasOpposingWall_neighbourExists x' y' d' Hn).
      unfold neighbourExists. rewrite Hinv. exact Hin. }
    exists x', y', d'. split; [| split; [exact Hn | split; [exact Hback |]]].
    + rewrite (getOpposingWall_run x y d w Hopp), Ho. reflexivity.
    + rewrite (getOpposingWall_run x' y' d' w Hback), Hinv. reflexivity.
  - intros Hno. unfold getOpposingWall, bind, ASSERT. rewrite Hno. reflexivity.
Qed.

(** X8: with the both-wall-halves flag on, a wall between two tiles of
    the maze can be declared, or undeclared, from either side: the call
    on one tile and the call on its neighbour with the opposing direction
    end in the same world. *)
Theorem wall_from_either_side (x y : Z) (c c' : ascii) (d : Direction) (b : bool)
    (w : World) :
  withinMaze x y = true ->
  hasOpposingWall x y d = true ->
  declareBothWallHalves P = true ->
  CHAR_TO_DIRECTION !! c = Some d ->
  CHAR_TO_DIRECTION !! c' = Some (snd (opposingWall x y d)) ->
  declareWall x y c b w
  = declareWall (fst (fst (opposingWall x y d))) (snd (fst (opposingWall x y d))) c' b w /\
  undeclareWall x y c w
  = undeclareWall (fst (fst (opposingWall x y d))) (snd (fst (opposingWall x y d))) c' w.
Proof.
  intros Hin Hopp Hboth Hc Hc'.
  pose proof (hasOpposingWall_neighbourExists x y d Hin) as Hn.
  rewrite Hopp in Hn. symmetry in Hn.
  pose proof (opposingWall_involutive x y d) as Hinv.
  pose proof (opposingWall_differs x y d) as Hne.
  assert (Hin' : withinMaze (fst (fst (opposingWall x y d)))
                   (snd (fst (opposingWall x y d))) = true) by exact Hn.
  rewrite (declareWall_valid x y c d b w Hin Hc).
  rewrite (undeclareWall_valid x y c d w Hin Hc).
  rewrite (declareWall_valid _ _ c' _ b w Hin' Hc').
  rewrite (undeclareWall_valid _ _ c' _ w Hin' Hc').
  assert (Hn' : neighbourExists (fst (fst (opposingWall x y d)))
                  (snd (fst (opposingWall x y d))) (snd (opposingWall x y d)) = true).
  { unfold neighbourExists. rewrite Hinv. exact Hin. }
  rewrite Hn, Hn', Hboth, Hinv. simpl.
  destruct (opposingWall x y d) as [[x' y'] d']. simpl in *.
  unfold GraphicModel.declareWall, GraphicModel.undeclareWall; simpl.
  split; do 3 f_equal.
  - apply insert_insert_ne. exact Hne.
  - apply delete_delete.
Qed.

(** The three wall queries of the discrete interface, and the side of
    the mouse each looks at. *)
Inductive WallQuery := QFront | QLeft | QRight.

Definition wallQuery (q : WallQuery) : M bool :=
  match q with
  | QFront => wallFront
  | QLeft => wallLeft
  | QRight => wallRight
  end.

Definition facing (q : WallQuery) (heading : Direction) : Direction :=
  match q with
  | QFront => heading
  | QLeft => leftOf heading
  | QRight => rightOf heading
  end.

Lemma isWall_Returned position d w b w' :
  isWall position d w = Returned b w' ->
  withinMaze (fst position) (snd position) = true /\
  b = tileIsWall m_maze (fst position) (snd position) d /\
  (if discreteInterfaceDeclareWallOnRead P
   then exists c, DIRECTION_TO_CHAR !! d = Some c /\
                  declareWall (fst position) (snd position) c b w = Returned tt w'
   else w' = w).
Proof.
  unfold isWall. intros H.
  apply bind_Returned in H as (u1 & w1 & Hassert & H).
  unfold ASSERT in Hassert.
  match type of Hassert with (if ?c then _ else _) _ = _ => destruct c eqn:Hin end;
    [| discriminate].
  inversion Hassert; subst.
  apply bind_Returned in H as (u2 & w2 & Hdecl & H).
  inversion H; subst.
  split; [exact Hin |]. split; [reflexivity |].
  destruct (discreteInterfaceDeclareWallOnRead P).
  - apply bind_Returned in Hdecl as (c & w3 & Hat & Hdecl).
    unfold at_ in Hat.
    destruct (DIRECTION_TO_CHAR !! d) as [c' |] eqn:Hc; [| discriminate].
    inversion Hat; subst. destruct u2. eauto.
  - inversion Hdecl; subst. reflexivity.
Qed.

Lemma wallQuery_Returned q w b w' :
  wallQuery q w = Returned b w' ->
  interfaceType (sim w) = DISCRETE /\
  isWall (discretizedTranslation w) (facing q (discretizedRotation w)) w = Returned b w'.
Proof.
  destruct q; simpl; unfold wallFront, wallLeft, wallRight, ENSURE_DISCRETE_INTERFACE;
    intros H; apply bind_Returned in H as (u & w0 & Hens & H);
    apply ensureDiscreteInterface_Returned in Hens as [Hmode ->];
    unfold getDiscretizedTranslation, getDiscretizedRotation, get, bind at 1 2 in H;
    (split; [exact Hmode |]);
    destruct (discretizedRotation w); exact H.
Qed.

Lemma wallQuery_frame q w b w' :
  wallQuery q w = Returned b w' ->
  b = tileIsWall m_maze (fst (discretizedTranslation w)) (snd (discretizedTranslation w))
        (facing q (discretizedRotation w)) /\
  sameSimulation w w'.
Proof.
  intros H. apply wallQuery_Returned in H as [_ H].
  apply isWall_Returned in H as (_ & Hb & Hdecl). split; [exact Hb |].
  destruct (discreteInterfaceDeclareWallOnRead P).
  - destruct Hdecl as (c & _ & Hdecl).
    destruct (declareWall_returns (fst (discretizedTranslation w))
                (snd (discretizedTranslation w)) c b w) as (w1 & Hw1 & Hsame).
    rewrite Hdecl in Hw1. inversion Hw1; subst. exact Hsame.
  - subst w'. apply sameSimulation_refl.
Qed.

(** X9: a wall query that returns has returned what the maze holds for
    the tile the mouse is in and the side asked for, and has changed
    neither the mouse nor the process-wide state; with declaring on read
    off it has changed nothing at all, and with it on (and the two
    direction tables inverse on that direction) the wall just read is
    declared with the value returned. *)
Theorem wall_query_reads_the_maze (q : WallQuery) (w w' : World) (b : bool) :
  wallQuery q w = Returned b w' ->
  interfaceType (sim w) = DISCRETE /\
  withinMaze (fst (discretizedTranslation w)) (snd (discretizedTranslation w)) = true /\
  b = tileIsWall m_maze (fst (discretizedTranslation w)) (snd (discretizedTranslation w))
        (facing q (discretizedRotation w)) /\
  sameSimulation w w' /\
  (discreteInterfaceDeclareWallOnRead P = false -> w' = w) /\
  (discreteInterfaceDeclareWallOnRead P = true ->
   forall c, DIRECTION_TO_CHAR !! facing q (discretizedRotation w) = Some c ->
             CHAR_TO_DIRECTION !! c = Some (facing q (discretizedRotation w)) ->
     g_declaredWalls (graphic w')
       !! (fst (discretizedTranslation w), snd (discretizedTranslation w),
           facing q (discretizedRotation w)) = Some b).
Proof.
  intros H. apply wallQuery_Returned in H as [Hmode H].
  apply isWall_Returned in H as (Hin & Hb & Hdecl).
  split; [exact Hmode |]. split; [exact Hin |]. split; [exact Hb |].
  destruct (discreteInterfaceDeclareWallOnRead P).
  - destruct Hdecl as (c & Hc & Hdecl).
    split; [| split; [discriminate |]].
    + destruct (declareWall_returns (fst (discretizedTranslation w))
                  (snd (discretizedTranslation w)) c b w) as (w1 & Hw1 & Hsame).
      rewrite Hdecl in Hw1. inversion Hw1; subst. exact Hsame.
    + intros _ c0 Hc0 Hback. rewrite Hc in Hc0. inversion Hc0; subst c0.
      rewrite (declareWall_valid _ _ c _ b w Hin Hback) in Hdecl.
      inversion Hdecl; subst. simpl.
      pose proof (opposingWall_differs (fst (discretizedTranslation w))
                    (snd (discretizedTranslation w))
                    (facing q (discretizedRotation w))) as Hne.
      destruct (declareBothWallHalves P && neighbourExists _ _ _); simpl.
      * destruct (opposingWall _ _ _) as [[ox oy] od]. simpl.
        rewrite lookup_insert_ne by exact Hne. apply lookup_insert_eq.
      * apply lookup_insert_eq.
  - subst w'. split; [apply sameSimulation_refl |]. split; [reflexivity | discriminate].
Qed.

(** X10: in DISCRETE mode, with the mouse over no tile of the maze, each
    wall query and [moveForward] fail the assertion of [isWall], with the
    world as it was. *)
Theorem wall_query_outside_maze (q : WallQuery) (fuel : nat) (w : World) :
  interfaceType (sim w) = DISCRETE ->
  withinMaze (fst (discretizedTranslation w)) (snd (discretizedTranslation w)) = false ->
  wallQuery q w = Stopped ASSERT_FAILED w /\
  moveForward fuel w = Stopped ASSERT_FAILED w.
Proof.
  intros Hmode Hout. unfold withinMaze in Hout.
  assert (Hfront : wallFront w = Stopped ASSERT_FAILED w).
  { unfold wallFront, ENSURE_DISCRETE_INTERFACE. unfold bind at 1.
    rewrite (ensureDiscreteInterface_passes _ _ Hmode).
    unfold getDiscretizedTranslation, getDiscretizedRotation, get, bind at 1 2.
    unfold isWall, ASSERT, bind. rewrite Hout. reflexivity. }
  split.
  - destruct q; simpl; [exact Hfront | |];
      unfold wallLeft, wallRight, ENSURE_DISCRETE_INTERFACE; unfold bind at 1;
      rewrite (ensureDiscreteInterface_passes _ _ Hmode);
      unfold getDiscretizedTranslation, getDiscretizedRotation, get, bind at 1 2;
      destruct (discretizedRotation w); unfold isWall, ASSERT, bind; rewrite Hout;
      reflexivity.
  - unfold moveForward, ENSURE_DISCRETE_INTERFACE. unfold bind at 1.
    rewrite (ensureDiscreteInterface_passes _ _ Hmode).
    unfold bind at 1. rewrite Hfront. reflexivity.
Qed.

(** *** Pausing and sensor reads *)

Lemma while_sleep_trace seconds cond fuel :
  forall w w',
    while fuel cond (sleep seconds) w = Returned tt w' ->
    exists n,
      trace w' = (trace w ++ repeat (EvSleep seconds) n)%list /\
      (cond w = true -> (1 <= n)%nat).
Proof.
  induction fuel as [| fuel IH]; intros w w'; simpl;
    destruct (cond w) eqn:Hc; try discriminate;
    try (intros H; inversion H; subst; exists 0%nat; simpl;
         rewrite app_nil_r; split; [reflexivity | discriminate]).
  intros H. apply bind_Returned in H as ([] & w1 & Hsleep & H).
  apply IH in H as (n & Ht & _).
  exists (S n). split; [| intros _; lia].
  rewrite Ht.
  assert (Ht1 : trace w1 = (trace w ++ [EvSleep seconds])%list).
  { unfold sleep, modify in Hsleep.
    destruct (simulate seconds (mouse w, sim w)) as [m s0].
    inversion Hsleep; subst. reflexivity. }
  rewrite Ht1, <- app_assoc. reflexivity.
Qed.

(** X11: [checkPaused] returns only in a world that is not paused; from
    a world that is not paused it returns at once with nothing changed,
    and from a paused one it first commands both wheels to zero and then
    does nothing but sleep, one tick at a time, until it finds the pause
    lifted. *)
Theorem checkPaused_waits (fuel : nat) (w w' : World) :
  checkPaused fuel w = Returned tt w' ->
  paused (sim w') = false /\
  (paused (sim w) = false -> w' = w) /\
  (paused (sim w) = true ->
   exists n,
     trace w' = (trace w ++ CmdSetWheelSpeeds 0 0
                   :: repeat (EvSleep (Milliseconds (minSleepDuration P))) n)%list).
Proof.
  unfold checkPaused. intros H.
  unfold bind at 1, get in H.
  destruct (paused (sim w)) eqn:Hp.
  - unfold bind, Mouse_setWheelSpeeds, modify in H.
    split; [exact (while_exit _ _ _ _ _ H) |]. split; [discriminate |].
    intros _. apply while_sleep_trace in H as (n & Ht & _).
    exists n. rewrite Ht. simpl. rewrite <- app_assoc. reflexivity.
  - inversion H; subst. split; [exact Hp |]. split; [reflexivity | discriminate].
Qed.

Lemma ensureContinuousInterface_passes func w :
  interfaceType (sim w) = CONTINUOUS ->
  ensureContinuousInterface func w = Returned tt w.
Proof.
  intros H. unfold ensureContinuousInterface, bind, get. rewrite H. reflexivity.
Qed.

Lemma std_max_0_nonneg (x : Q) : (0 <= std_max 0 x)%Q.
Proof.
  unfold std_max, Qltb. destruct (Qle_bool x 0) eqn:Hle; simpl.
  - apply Qle_refl.
  - apply Qlt_le_weak. apply Qnot_le_lt. intros Habs.
    apply Qle_bool_iff in Habs. congruence.
Qed.

(** the line [read] prints for a read that took longer than the sensor's
    read duration *)
Definition lateReadMessage (sensor : Sensor) (duration : Q) : string :=
  "A sensor read was late by "
  ++ to_string_double (duration - sensorReadDuration sensor)%Q
  ++ " seconds, which is "
  ++ to_string_double
       ((duration - sensorReadDuration sensor) / sensorReadDuration sensor * 100)%Q
  ++ " percent late.".

(** X12: in CONTINUOUS mode, [read] of a sensor the mouse has returns
    the reading of that sensor and sleeps exactly once, for the rest of
    the frame interval and never for a negative time; it prints the late
    message exactly when late reads are to be printed and the read took
    longer than the sensor's read duration.  [read] of a sensor the mouse
    does not have prints an error and returns zero without sleeping. *)
Theorem read_sensor (name : string) (w : World) :
  interfaceType (sim w) = CONTINUOUS ->
  match m_sensors (mouse w) !! name with
  | Some sensor =>
      exists w',
        read name w = Returned (sensorReading sensor) w' /\
        trace w' = (trace w ++ [EvSleep (std_max 0 (1 / frameRate P - readElapsed name w))])%list /\
        (0 <= std_max 0 (1 / frameRate P - readElapsed name w))%Q /\
        printed w' =
          (if printLateSensorReads P
              && Qltb (sensorReadDuration sensor) (readElapsed name w)
           then printed w ++ [lateReadMessage sensor (readElapsed name w)]
           else printed w)%list
  | None =>
      exists line,
        read name w = Returned 0%Q (with_printed (printed w ++ [line]) w)
  end.
Proof.
  intros Hmode.
  assert (Hrun : read name w
                 = match m_sensors (mouse w) !! name with
                   | None =>
                       (print ("Error: There is no sensor called " ++ of_char "034" ++ name
                               ++ of_char "034" ++ " and thus you cannot read its value.") ;;
                        ret 0%Q) w
                   | Some sensor =>
                       (duration <- get (readElapsed name) ;;
                        (if printLateSensorReads P
                            && Qltb (sensorReadDuration sensor) duration
                         then print (lateReadMessage sensor duration)
                         else ret tt) ;;
                        sleep (std_max 0 (1 / frameRate P - duration)) ;;
                        ret (sensorReading sensor)) w
                   end).
  { unfold read, ENSURE_CONTINUOUS_INTERFACE. unfold bind at 1.
    rewrite (ensureContinuousInterface_passes _ _ Hmode).
    unfold bind at 1. unfold get at 1.
    destruct (m_sensors (mouse w) !! name); reflexivity. }
  destruct (m_sensors (mouse w) !! name) as [sensor |].
  - rewrite Hrun. unfold bind at 1. unfold get at 1.
    destruct (printLateSensorReads P
              && Qltb (sensorReadDuration sensor) (readElapsed name w)) eqn:Hlate.
    + unfold bind, print, modify, sleep, ret. simpl.
      destruct (simulate _ _) as [m s0]. simpl.
      eexists. split; [reflexivity |]. simpl.
      split; [reflexivity |]. split; [apply std_max_0_nonneg | reflexivity].
    + unfold bind, modify, sleep, ret. simpl.
      destruct (simulate _ _) as [m s0]. simpl.
      eexists. split; [reflexivity |]. simpl.
      split; [reflexivity |]. split; [apply std_max_0_nonneg | reflexivity].
  - rewrite Hrun. eexists. reflexivity.
Qed.

(** *** Angles and turns *)

Definition wrapped (a : Angle) : Prop := (0 <= a)%Q /\ (a < 360)%Q.

Lemma wrap360_wrapped (x : Q) : wrapped (wrap360 x).
Proof.
  unfold wrapped, wrap360.
  pose proof (Qfloor_le (x / 360)) as Hlo.
  pose proof (Qlt_floor (x / 360)) as Hhi.
  rewrite inject_Z_plus in Hhi. change (inject_Z 1) with 1%Q in Hhi.
  assert (Hx : (x == x / 360 * 360)%Q) by (field; discriminate).
  set (f := inject_Z (Qfloor (x / 360))) in *.
  set (q := (x / 360)%Q) in *.
  split; rewrite Hx at 1; lra.
Qed.

Lemma wrap360_id (x : Q) : wrapped x -> (wrap360 x == x)%Q.
Proof.
  intros [Hlo Hhi]. unfold wrap360.
  assert (Hfloor : Qfloor (x / 360) = 0).
  { apply Qfloor_unique.
    - apply Qle_shift_div_l; [reflexivity |]. change (inject_Z 0) with 0%Q. lra.
    - apply Qlt_shift_div_r; [reflexivity |]. change (inject_Z (0 + 1)) with 1%Q. lra. }
  rewrite Hfloor. change (inject_Z 0) with 0%Q. ring.
Qed.

Lemma wrap360_shift (x : Q) (k : Z) :
  (wrap360 (x + 360 * inject_Z k) == wrap360 x)%Q.
Proof.
  unfold wrap360.
  assert (Hfloor : Qfloor ((x + 360 * inject_Z k) / 360) = Qfloor (x / 360) + k).
  { pose proof (Qfloor_le (x / 360)) as Hlo.
    pose proof (Qlt_floor (x / 360)) as Hhi.
    rewrite inject_Z_plus in Hhi. change (inject_Z 1) with 1%Q in Hhi.
    assert (Hdiv : ((x + 360 * inject_Z k) / 360 == x / 360 + inject_Z k)%Q)
      by (field; discriminate).
    apply Qfloor_unique; rewrite Hdiv, !inject_Z_plus;
      try change (inject_Z 1) with 1%Q; lra. }
  rewrite Hfloor, inject_Z_plus. ring.
Qed.

(** wrapping the first summand changes nothing once the sum is wrapped *)
Lemma wrap360_absorb (a b : Q) : (wrap360 (wrap360 a + b) == wrap360 (a + b))%Q.
Proof.
  transitivity (wrap360 (a + b + 360 * inject_Z (- Qfloor (a / 360)))).
  - apply wrap360_comp. unfold wrap360. rewrite inject_Z_opp. ring.
  - apply wrap360_shift.
Qed.

Lemma quarter_back_and_forth (r : Q) :
  wrapped r ->
  (Angle_add (Angle_sub r (Degrees 90)) (Degrees 90) == r)%Q /\
  (Angle_sub (Angle_add r (Degrees 90)) (Degrees 90) == r)%Q.
Proof.
  intros Hr. unfold Angle_add, Angle_sub, Degrees.
  assert (H90 : (wrap360 90 == 90)%Q) by reflexivity.
  split.
  - rewrite wrap360_absorb. rewrite <- (wrap360_id r Hr) at 2.
    apply wrap360_comp. rewrite H90. ring.
  - unfold Qminus. rewrite wrap360_absorb. rewrite <- (wrap360_id r Hr) at 2.
    apply wrap360_comp. rewrite H90. ring.
Qed.

Lemma quarter_step (x a : Q) :
  (x == wrap360 a)%Q -> (Angle_sub x (Degrees 90) == wrap360 (a - 90))%Q.
Proof.
  intros H. unfold Angle_sub, Degrees.
  transitivity (wrap360 (wrap360 a + - wrap360 90)).
  - apply wrap360_comp. apply Qplus_comp; [exact H | reflexivity].
  - rewrite wrap360_absorb. apply wrap360_comp. reflexivity.
Qed.

Lemma four_quarters (r : Q) :
  wrapped r ->
  (Angle_sub (Angle_sub (Angle_sub (Angle_sub r (Degrees 90)) (Degrees 90)) (Degrees 90))
     (Degrees 90) == r)%Q.
Proof.
  intros Hr.
  assert (H0 : (r == wrap360 r)%Q) by (symmetry; apply wrap360_id; exact Hr).
  pose proof (quarter_step _ _ (quarter_step _ _ (quarter_step _ _ (quarter_step _ _ H0))))
    as H4.
  rewrite H4.
  transitivity (wrap360 (r + 360 * inject_Z (-1))).
  - apply wrap360_comp. change (inject_Z (-1)) with (- (1))%Q. ring.
  - rewrite wrap360_shift. apply wrap360_id. exact Hr.
Qed.

(** What a turn that returns has done to the pose. *)
Lemma turnRight_Returned fuel w w' :
  turnRight fuel w = Returned tt w' ->
  m_currentTranslation (mouse w') = m_currentTranslation (mouse w) /\
  m_currentRotation (mouse w') = Angle_sub (m_currentRotation (mouse w)) (Degrees 90).
Proof.
  intros H. apply (motion_Returned fuel TurnRight) in H
    as [_ [(Habs & _) | (_ & w1 & _ & _ & Hm & _)]]; [discriminate |].
  simpl in Hm. rewrite Hm. split; reflexivity.
Qed.

Lemma turnLeft_Returned fuel w w' :
  turnLeft fuel w = Returned tt w' ->
  m_currentTranslation (mouse w') = m_currentTranslation (mouse w) /\
  m_currentRotation (mouse w') = Angle_add (m_currentRotation (mouse w)) (Degrees 90).
Proof.
  intros H. apply (motion_Returned fuel TurnLeft) in H
    as [_ [(Habs & _) | (_ & w1 & _ & _ & Hm & _)]]; [discriminate |].
  simpl in Hm. rewrite Hm. split; reflexivity.
Qed.

Lemma discretizedRotation_comp w w' :
  (m_currentRotation (mouse w) == m_currentRotation (mouse w'))%Q ->
  discretizedRotation w = discretizedRotation w'.
Proof. apply getDiscretizedRotation_comp. Qed.

(** A motion that returns leaves the rotation of the mouse in the
    range from 0 (included) to 360 (excluded) if it was there before, and
    so does [resetPosition]. *)
Theorem rotation_stays_wrapped (fuel : nat) (m : Motion) (w w' : World) :
  wrapped (m_currentRotation (mouse w)) ->
  (run fuel m w = Returned tt w' -> wrapped (m_currentRotation (mouse w'))) /\
  (resetPosition w = Returned tt w' -> wrapped (m_currentRotation (mouse w'))).
Proof.
  intros Hw. split.
  - intros H. apply motion_Returned in H
      as [_ [(_ & _ & _ & Hm & _) | (_ & w1 & _ & _ & Hm & _)]].
    + rewrite Hm. exact Hw.
    + rewrite Hm. simpl. destruct m; simpl.
      * unfold moveForward_plan. destruct (discretizedRotation w); simpl;
          apply wrap360_wrapped.
      * apply wrap360_wrapped.
      * apply wrap360_wrapped.
  - intros H. inversion H; subst. simpl. apply wrap360_wrapped.
Qed.

(** X13: a right turn followed by a left turn, or a left turn followed
    by a right turn, puts a mouse whose rotation is in range back in the
    pose it started from: the same translation, an equal rotation, the
    same heading. *)
Theorem turn_there_and_back (fuel fuel' : nat) (w w1 w2 : World) :
  wrapped (m_currentRotation (mouse w)) ->
  (turnRight fuel w = Returned tt w1 /\ turnLeft fuel' w1 = Returned tt w2) \/
  (turnLeft fuel w = Returned tt w1 /\ turnRight fuel' w1 = Returned tt w2) ->
  m_currentTranslation (mouse w2) = m_currentTranslation (mouse w) /\
  (m_currentRotation (mouse w2) == m_currentRotation (mouse w))%Q /\
  discretizedRotation w2 = discretizedRotation w.
Proof.
  intros Hw Hturns.
  assert (Hpose : m_currentTranslation (mouse w2) = m_currentTranslation (mouse w) /\
                  (m_currentRotation (mouse w2) == m_currentRotation (mouse w))%Q).
  { destruct Hturns as [[H1 H2] | [H1 H2]].
    - apply turnRight_Returned in H1 as [Ht1 Hr1].
      apply turnLeft_Returned in H2 as [Ht2 Hr2].
      split; [congruence |]. rewrite Hr2, Hr1.
      apply (quarter_back_and_forth _ Hw).
    - apply turnLeft_Returned in H1 as [Ht1 Hr1].
      apply turnRight_Returned in H2 as [Ht2 Hr2].
      split; [congruence |]. rewrite Hr2, Hr1.
      apply (quarter_back_and_forth _ Hw). }
  destruct Hpose as [Ht Hr]. split; [exact Ht |]. split; [exact Hr |].
  apply discretizedRotation_comp. exact Hr.
Qed.

(** *** Headings, moves and walls together *)

Definition oppositeOf (heading : Direction) : Direction := rightOf (rightOf heading).

Lemma canonical_heading (m : Mouse) (h : Direction) :
  (m_currentRotation m == canonicalAngle h)%Q -> MouseModel.getDiscretizedRotation m = h.
Proof.
  intros H.
  transitivity (MouseModel.getDiscretizedRotation
                  (MouseModel.teleport (0, 0)%Q (canonicalAngle h) m)).
  - apply getDiscretizedRotation_comp. exact H.
  - destruct h; reflexivity.
Qed.

Lemma canonical_turn (r : Q) (h : Direction) :
  (r == canonicalAngle h)%Q ->
  (Angle_sub r (Degrees 90) == canonicalAngle (rightOf h))%Q /\
  (Angle_add r (Degrees 90) == canonicalAngle (leftOf h))%Q.
Proof.
  intros H. unfold Angle_sub, Angle_add, Degrees. split.
  - transitivity (wrap360 (canonicalAngle h - wrap360 90)).
    + apply wrap360_comp. apply Qplus_comp; [exact H | reflexivity].
    + destruct h; reflexivity.
  - transitivity (wrap360 (canonicalAngle h + wrap360 90)).
    + apply wrap360_comp. apply Qplus_comp; [exact H | reflexivity].
    + destruct h; reflexivity.
Qed.

Lemma turnAround_Returned fuel w w' :
  turnAround fuel w = Returned tt w' ->
  m_currentTranslation (mouse w') = m_currentTranslation (mouse w) /\
  m_currentRotation (mouse w')
  = Angle_sub (Angle_sub (m_currentRotation (mouse w)) (Degrees 90)) (Degrees 90).
Proof.
  unfold turnAround, ENSURE_DISCRETE_INTERFACE. intros H.
  apply bind_Returned in H as (u & w0 & Hens & H).
  apply ensureDiscreteInterface_Returned in Hens as [_ ->].
  apply bind_Returned in H as ([] & w1 & H1 & H2).
  apply turnRight_Returned in H1 as [Ht1 Hr1].
  apply turnRight_Returned in H2 as [Ht2 Hr2].
  split; congruence.
Qed.

(** Where the teleport of a [moveForward] that moved has put the mouse. *)
Lemma moveForward_lands w w1 w' :
  (0 < tileLength)%Q ->
  startsInOriginTile w ->
  arrived (fst (fst (moveForward_plan w))) (snd (fst (moveForward_plan w))) w1 w' ->
  discretizedTranslation w' = cellAhead (discretizedTranslation w) (discretizedRotation w) /\
  (m_currentRotation (mouse w') == canonicalAngle (discretizedRotation w))%Q /\
  discretizedRotation w' = discretizedRotation w.
Proof.
  intros HT (Hx0 & Hx1 & Hy0 & Hy1) (Hm & _).
  assert (Hpos : m_currentTranslation (mouse w') = fst (fst (moveForward_plan w)))
    by (rewrite Hm; reflexivity).
  assert (Hrot : m_currentRotation (mouse w') = snd (fst (moveForward_plan w)))
    by (rewrite Hm; reflexivity).
  assert (Hcanon : (m_currentRotation (mouse w') == canonicalAngle (discretizedRotation w))%Q)
    by (rewrite Hrot; apply moveForward_case_rotation).
  split; [| split; [exact Hcanon | apply canonical_heading; exact Hcanon]].
  assert (Hxy :
    (getX (fst (fst (moveForward_plan w))) ==
       tileLength * inject_Z (fst (cellAhead (discretizedTranslation w) (discretizedRotation w)))
       + getX (m_initialTranslation (mouse w)))%Q /\
    (getY (fst (fst (moveForward_plan w))) ==
       tileLength * inject_Z (snd (cellAhead (discretizedTranslation w) (discretizedRotation w)))
       + getY (m_initialTranslation (mouse w)))%Q).
  { unfold moveForward_plan.
    destruct (discretizedRotation w);
      cbn [moveForward_case Cartesian_add cellAhead getX getY fst snd];
      unfold Z.sub; rewrite ?inject_Z_plus;
      change (inject_Z (- (1))) with (- (1))%Q; change (inject_Z 1) with 1%Q;
      split; ring. }
  destruct Hxy as [HX HY].
  unfold discretizedTranslation at 1, MouseModel.getDiscretizedTranslation.
  rewrite Hpos.
  rewrite (Qfloor_cell tileLength _ _ _ HT Hx0 Hx1 HX).
  rewrite (Qfloor_cell tileLength _ _ _ HT Hy0 Hy1 HY).
  destruct (cellAhead (discretizedTranslation w) (discretizedRotation w)); reflexivity.
Qed.

(** every tile on the border of the maze has its outward wall *)
Definition enclosed : Prop :=
  forall x y, withinMaze x y = true ->
    (y = getHeight m_maze - 1 -> tileIsWall m_maze x y NORTH = true) /\
    (x = getWidth m_maze - 1 -> tileIsWall m_maze x y EAST = true) /\
    (y = 0 -> tileIsWall m_maze x y SOUTH = true) /\
    (x = 0 -> tileIsWall m_maze x y WEST = true).

Lemma withinMaze_spec x y :
  withinMaze x y = true <-> 0 <= x < getWidth m_maze /\ 0 <= y < getHeight m_maze.
Proof.
  unfold withinMaze. rewrite !andb_true_iff, !Z.leb_le, !Z.ltb_lt. lia.
Qed.

(** X14: in a maze whose border tiles all have their outward wall, a
    [moveForward] that returns leaves the mouse over a tile of the maze:
    the tile it was over when a wall was ahead, the tile ahead otherwise
    (tile length above zero, initial translation inside the tile at the
    origin). *)
Theorem moveForward_stays_in_maze (fuel : nat) (w w' : World) :
  enclosed ->
  (0 < tileLength)%Q ->
  startsInOriginTile w ->
  moveForward fuel w = Returned tt w' ->
  withinMaze (fst (discretizedTranslation w')) (snd (discretizedTranslation w')) = true /\
  discretizedTranslation w'
  = (if wallAhead w then discretizedTranslation w
     else cellAhead (discretizedTranslation w) (discretizedRotation w)).
Proof.
  intros Henc HT Hstart H.
  apply (motion_Returned fuel MoveForward) in H
    as [_ [(_ & Hdef & Hwall & Hm & _) | (Hmove & w1 & _ & _ & Harr)]].
  - rewrite Hwall. unfold discretizedTranslation in *. rewrite Hm.
    split; [apply Hdef | reflexivity].
  - destruct (Hmove eq_refl) as [(_ & Hin & _) Hwall]. rewrite Hwall.
    destruct (moveForward_lands w w1 w' HT Hstart Harr) as (Hcell & _).
    split; [| exact Hcell]. rewrite Hcell.
    specialize (Henc _ _ Hin) as (Hn & He & Hs & Hw).
    unfold wallAhead in Hwall. apply withinMaze_spec in Hin. apply withinMaze_spec.
    destruct (discretizedTranslation w) as [cx cy];
      destruct (discretizedRotation w); cbn [cellAhead fst snd] in *.
    + assert (cy <> getHeight m_maze - 1) by (intros E; rewrite Hn in Hwall; congruence).
      lia.
    + assert (cx <> getWidth m_maze - 1) by (intros E; rewrite He in Hwall; congruence).
      lia.
    + assert (cy <> 0) by (intros E; rewrite Hs in Hwall; congruence). lia.
    + assert (cx <> 0) by (intros E; rewrite Hw in Hwall; congruence). lia.
Qed.

(** X15: [turnAround] twice puts a mouse whose rotation is in range back
    in the pose it started from, and one [turnAround] from the angle of a
    heading ends at the angle of the opposite heading, at the translation
    it started from. *)
Theorem turnAround_reverses (fuel fuel' : nat) (w w1 w2 : World) :
  turnAround fuel w = Returned tt w1 ->
  m_currentTranslation (mouse w1) = m_currentTranslation (mouse w) /\
  ((m_currentRotation (mouse w) == canonicalAngle (discretizedRotation w))%Q ->
   (m_currentRotation (mouse w1) == canonicalAngle (oppositeOf (discretizedRotation w)))%Q /\
   discretizedRotation w1 = oppositeOf (discretizedRotation w)) /\
  (wrapped (m_currentRotation (mouse w)) ->
   turnAround fuel' w1 = Returned tt w2 ->
   m_currentTranslation (mouse w2) = m_currentTranslation (mouse w) /\
   (m_currentRotation (mouse w2) == m_currentRotation (mouse w))%Q /\
   discretizedRotation w2 = discretizedRotation w).
Proof.
  intros H1. apply turnAround_Returned in H1 as [Ht1 Hr1].
  split; [exact Ht1 |]. split.
  - intros Hcanon.
    apply canonical_turn in Hcanon as [Hq _].
    apply canonical_turn in Hq as [Hh _].
    rewrite <- Hr1 in Hh. split; [exact Hh |].
    apply canonical_heading. exact Hh.
  - intros Hw H2. apply turnAround_Returned in H2 as [Ht2 Hr2].
    assert (Hr : (m_currentRotation (mouse w2) == m_currentRotation (mouse w))%Q).
    { rewrite Hr2, Hr1. apply four_quarters. exact Hw. }
    split; [congruence |]. split; [exact Hr |].
    apply discretizedRotation_comp. exact Hr.
Qed.

Lemma cellAhead_back cell h : cellAhead (cellAhead cell h) (oppositeOf h) = cell.
Proof. destruct cell as [cx cy], h; simpl; f_equal; lia. Qed.

(** X16: a move forward, a [turnAround] and a second move forward bring
    the mouse back over the tile it started from, facing the opposite
    way (no wall ahead at either move, tile length above zero, initial
    translation inside the tile at the origin at both moves). *)
Theorem forward_and_back (fuel : nat) (w w1 w2 w3 : World) :
  (0 < tileLength)%Q ->
  startsInOriginTile w ->
  startsInOriginTile w2 ->
  wallAhead w = false ->
  wallAhead w2 = false ->
  moveForward fuel w = Returned tt w1 ->
  turnAround fuel w1 = Returned tt w2 ->
  moveForward fuel w2 = Returned tt w3 ->
  discretizedTranslation w1 = cellAhead (discretizedTranslation w) (discretizedRotation w) /\
  discretizedTranslation w3 = discretizedTranslation w /\
  discretizedRotation w3 = oppositeOf (discretizedRotation w).
Proof.
  intros HT Hs Hs2 Hwall Hwall2 H1 H2 H3.
  apply (motion_Returned fuel MoveForward) in H1
    as [_ [(_ & _ & Habs & _) | (_ & u1 & _ & _ & Harr1)]]; [congruence |].
  destruct (moveForward_lands w u1 w1 HT Hs Harr1) as (Hcell1 & Hrot1 & Hhead1).
  apply turnAround_Returned in H2 as [Ht2 Hr2].
  rewrite <- Hhead1 in Hrot1.
  apply canonical_turn in Hrot1 as [Hq _].
  apply canonical_turn in Hq as [Hh _].
  rewrite <- Hr2 in Hh. fold (oppositeOf (discretizedRotation w1)) in Hh.
  assert (Hhead2 : discretizedRotation w2 = oppositeOf (discretizedRotation w1))
    by (apply canonical_heading; exact Hh).
  assert (Hcell2 : discretizedTranslation w2 = discretizedTranslation w1).
  { unfold discretizedTranslation, MouseModel.getDiscretizedTranslation. rewrite Ht2.
    reflexivity. }
  apply (motion_Returned fuel MoveForward) in H3
    as [_ [(_ & _ & Habs & _) | (_ & u3 & _ & _ & Harr3)]]; [congruence |].
  destruct (moveForward_lands w2 u3 w3 HT Hs2 Harr3) as (Hcell3 & _ & Hhead3).
  split; [exact Hcell1 |]. split.
  - rewrite Hcell3, Hcell2, Hhead2, Hcell1, Hhead1. apply cellAhead_back.
  - rewrite Hhead3, Hhead2, Hhead1. reflexivity.
Qed.

(** X17: from the angle of its heading, what [wallRight] returns is what
    [wallFront] returns after a [turnRight], and what [wallLeft] returns
    is what [wallFront] returns after a [turnLeft]. *)
Theorem side_wall_is_front_wall_after_turn (fuel : nat) (w w0 w1 w2 : World) (b b' : bool) :
  (m_currentRotation (mouse w) == canonicalAngle (discretizedRotation w))%Q ->
  (wallQuery QRight w = Returned b w0 /\ turnRight fuel w0 = Returned tt w1) \/
  (wallQuery QLeft w = Returned b w0 /\ turnLeft fuel w0 = Returned tt w1) ->
  wallQuery QFront w1 = Returned b' w2 ->
  b' = b.
Proof.
  intros Hcanon Hside Hfront.
  apply wallQuery_frame in Hfront as [-> _]. cbn [facing].
  destruct Hside as [[Hq Hturn] | [Hq Hturn]];
    apply wallQuery_frame in Hq as [-> (Hm & _)]; cbn [facing].
  - apply turnRight_Returned in Hturn as [Ht Hr].
    rewrite Hm in Ht, Hr.
    apply canonical_turn in Hcanon as [Hnew _]. rewrite <- Hr in Hnew.
    apply canonical_heading in Hnew.
    unfold discretizedRotation at 1. rewrite Hnew.
    unfold discretizedTranslation, MouseModel.getDiscretizedTranslation.
    rewrite Ht. reflexivity.
  - apply turnLeft_Returned in Hturn as [Ht Hr].
    rewrite Hm in Ht, Hr.
    apply canonical_turn in Hcanon as [_ Hnew]. rewrite <- Hr in Hnew.
    apply canonical_heading in Hnew.
    unfold discretizedRotation at 1. rewrite Hnew.
    unfold discretizedTranslation, MouseModel.getDiscretizedTranslation.
    rewrite Ht. reflexivity.
Qed.

(** *** Turns leave the annotations alone *)

(** the overlays, the record of coloured tiles, the console and the log
    are the same *)
Definition sameAnnotations (w w' : World) : Prop :=
  graphic w' = graphic w /\ m_tilesWithColor w' = m_tilesWithColor w /\
  printed w' = printed w /\ logged w' = logged w.

Lemma sameAnnotations_refl w : sameAnnotations w w.
Proof. repeat split. Qed.

Lemma sameAnnotations_trans w1 w2 w3 :
  sameAnnotations w1 w2 -> sameAnnotations w2 w3 -> sameAnnotations w1 w3.
Proof.
  unfold sameAnnotations. intros (? & ? & ? & ?) (? & ? & ? & ?).
  repeat split; congruence.
Qed.

Definition annotationFree {A} (c : M A) : Prop :=
  forall w a w', c w = Returned a w' -> sameAnnotations w w'.

Lemma annotationFree_bind {A B} (c : M A) (k : A -> M B) :
  annotationFree c -> (forall a, annotationFree (k a)) -> annotationFree (bind c k).
Proof.
  intros Hc Hk w b w' H. apply bind_Returned in H as (a & w1 & H1 & H2).
  eapply sameAnnotations_trans; [eapply Hc | eapply Hk]; eauto.
Qed.

Lemma annotationFree_get {A} (f : World -> A) : annotationFree (get f).
Proof. intros w a w' H. inversion H; subst. apply sameAnnotations_refl. Qed.

Lemma annotationFree_setWheelSpeeds l r : annotationFree (Mouse_setWheelSpeeds l r).
Proof. intros w a w' H. inversion H; subst. repeat split. Qed.

Lemma annotationFree_teleport t r : annotationFree (Mouse_teleport t r).
Proof. intros w a w' H. inversion H; subst. repeat split. Qed.

Lemma annotationFree_sleep seconds : annotationFree (sleep seconds).
Proof.
  intros w a w'. unfold sleep, modify.
  destruct (simulate seconds (mouse w, sim w)) as [m s0].
  intros H. inversion H; subst. repeat split.
Qed.

Lemma annotationFree_while fuel cond body :
  annotationFree body -> annotationFree (while fuel cond body).
Proof.
  intros Hbody w [] w'. apply while_rel.
  - apply sameAnnotations_refl.
  - apply sameAnnotations_trans.
  - intros w1 w2. apply Hbody.
Qed.

Lemma annotationFree_checkPaused fuel : annotationFree (checkPaused fuel).
Proof.
  unfold checkPaused. apply annotationFree_bind; [apply annotationFree_get |].
  intros []; [| intros w a w' H; inversion H; subst; apply sameAnnotations_refl].
  apply annotationFree_bind; [apply annotationFree_setWheelSpeeds |].
  intros _. apply annotationFree_while, annotationFree_sleep.
Qed.

Lemma annotationFree_ensureDiscreteInterface func :
  annotationFree (ensureDiscreteInterface func).
Proof.
  intros w a w' H. apply ensureDiscreteInterface_Returned in H as [_ ->].
  apply sameAnnotations_refl.
Qed.

Lemma annotationFree_turnRight fuel : annotationFree (turnRight fuel).
Proof.
  unfold turnRight, ENSURE_DISCRETE_INTERFACE.
  apply annotationFree_bind; [apply annotationFree_ensureDiscreteInterface | intros _].
  apply annotationFree_bind; [apply annotationFree_get | intros t].
  apply annotationFree_bind; [apply annotationFree_get | intros r].
  apply annotationFree_bind; [apply annotationFree_get | intros h].
  apply annotationFree_bind.
  - apply annotationFree_while. unfold spinRight.
    apply annotationFree_bind; [apply annotationFree_checkPaused | intros _].
    apply annotationFree_bind; [apply annotationFree_get | intros speed].
    apply annotationFree_bind;
      [apply annotationFree_setWheelSpeeds | intros _; apply annotationFree_sleep].
  - intros _. apply annotationFree_bind;
      [apply annotationFree_setWheelSpeeds | intros _; apply annotationFree_teleport].
Qed.

Lemma annotationFree_turnLeft fuel : annotationFree (turnLeft fuel).
Proof.
  unfold turnLeft, ENSURE_DISCRETE_INTERFACE.
  apply annotationFree_bind; [apply annotationFree_ensureDiscreteInterface | intros _].
  apply annotationFree_bind; [apply annotationFree_get | intros t].
  apply annotationFree_bind; [apply annotationFree_get | intros r].
  apply annotationFree_bind; [apply annotationFree_get | intros h].
  apply annotationFree_bind.
  - apply annotationFree_while. unfold spinLeft.
    apply annotationFree_bind; [apply annotationFree_checkPaused | intros _].
    apply annotationFree_bind; [apply annotationFree_get | intros speed].
    apply annotationFree_bind;
      [apply annotationFree_setWheelSpeeds | intros _; apply annotationFree_sleep].
  - intros _. apply annotationFree_bind;
      [apply annotationFree_setWheelSpeeds | intros _; apply annotationFree_teleport].
Qed.

(** The turns of the discrete interface. *)
Inductive Turn := TRight | TLeft | TAround.

Definition turn (fuel : nat) (t : Turn) : M unit :=
  match t with
  | TRight => turnRight fuel
  | TLeft => turnLeft fuel
  | TAround => turnAround fuel
  end.

(** X18: a turn that returns has written to no overlay, coloured or
    forgotten no tile, and put nothing on the console or in the log,
    however many times its loops went round and whatever happened to the
    mouse meanwhile. *)
Theorem turns_leave_annotations (fuel : nat) (t : Turn) (w w' : World) :
  turn fuel t w = Returned tt w' ->
  graphic w' = graphic w /\ m_tilesWithColor w' = m_tilesWithColor w /\
  printed w' = printed w /\ logged w' = logged w.
Proof.
  destruct t; simpl.
  - apply annotationFree_turnRight.
  - apply annotationFree_turnLeft.
  - unfold turnAround, ENSURE_DISCRETE_INTERFACE.
    apply (annotationFree_bind _ _ (annotationFree_ensureDiscreteInterface _)).
    intros _. apply annotationFree_bind; [apply annotationFree_turnRight |].
    intros _. apply annotationFree_turnRight.
Qed.

(** *** The wheel commands of a motion *)

(** a wheel command that drives straight: the wheels turn against each
    other at one speed (or both stand still) *)
Definition drivesStraight (e : Event) : bool :=
  match e with
  | CmdSetWheelSpeeds l r => Qeq_bool l (- r)
  | _ => true
  end.

(** a wheel command that spins in place: the wheels turn alike at one
    speed (or both stand still) *)
Definition spinsInPlace (e : Event) : bool :=
  match e with
  | CmdSetWheelSpeeds l r => Qeq_bool l r
  | _ => true
  end.

Definition emits (ok : Event -> bool) (w w' : World) : Prop :=
  exists es, trace w' = (trace w ++ es)%list /\ forallb ok es = true.

Definition emitting (ok : Event -> bool) {A} (c : M A) : Prop :=
  forall w a w', c w = Returned a w' -> emits ok w w'.

Lemma emits_refl ok w : emits ok w w.
Proof. exists []. split; [symmetry; apply app_nil_r | reflexivity]. Qed.

Lemma emits_trans ok w1 w2 w3 : emits ok w1 w2 -> emits ok w2 w3 -> emits ok w1 w3.
Proof.
  intros (es1 & H1 & Hq1) (es2 & H2 & Hq2). exists (es1 ++ es2)%list. split.
  - rewrite H2, H1. symmetry. apply app_assoc.
  - rewrite forallb_app, Hq1, Hq2. reflexivity.
Qed.

Lemma emits_same_trace ok w w' : trace w' = trace w -> emits ok w w'.
Proof. intros H. exists []. rewrite app_nil_r. auto. Qed.

Lemma emitting_bind ok {A B} (c : M A) (k : A -> M B) :
  emitting ok c -> (forall a, emitting ok (k a)) -> emitting ok (bind c k).
Proof.
  intros Hc Hk w b w' H. apply bind_Returned in H as (a & w1 & H1 & H2).
  eapply emits_trans; [eapply Hc | eapply Hk]; eauto.
Qed.

Lemma emitting_get ok {A} (f : World -> A) : emitting ok (get f).
Proof. intros w a w' H. inversion H; subst. apply emits_refl. Qed.

Lemma emitting_event ok (e : Event) (c : M unit) :
  ok e = true ->
  (forall w w', c w = Returned tt w' -> trace w' = (trace w ++ [e])%list) ->
  emitting ok c.
Proof.
  intros He Hc w [] w' H. exists [e]. split; [apply Hc; exact H |].
  simpl. rewrite He. reflexivity.
Qed.

Lemma emitting_setWheelSpeeds ok l r :
  ok (CmdSetWheelSpeeds l r) = true -> emitting ok (Mouse_setWheelSpeeds l r).
Proof.
  intros He. apply (emitting_event ok _ _ He). intros w w' H. inversion H; subst. reflexivity.
Qed.

Lemma emitting_teleport ok t r :
  ok (CmdTeleport t r) = true -> emitting ok (Mouse_teleport t r).
Proof.
  intros He. apply (emitting_event ok _ _ He). intros w w' H. inversion H; subst. reflexivity.
Qed.

Lemma emitting_sleep ok seconds :
  ok (EvSleep seconds) = true -> emitting ok (sleep seconds).
Proof.
  intros He. apply (emitting_event ok _ _ He). intros w w'. unfold sleep, modify.
  destruct (simulate seconds (mouse w, sim w)) as [m s0].
  intros H. inversion H; subst. reflexivity.
Qed.

Lemma emitting_while ok fuel cond body :
  emitting ok body -> emitting ok (while fuel cond body).
Proof.
  intros Hbody w [] w'. apply while_rel.
  - apply emits_refl.
  - apply emits_trans.
  - intros w1 w2. apply Hbody.
Qed.

Lemma Qeq_bool_refl_true (x : Q) : Qeq_bool x x = true.
Proof. apply Qeq_bool_iff. reflexivity. Qed.

Lemma emitting_checkPaused ok fuel :
  ok (CmdSetWheelSpeeds 0 0) = true -> (forall d, ok (EvSleep d) = true) ->
  emitting ok (checkPaused fuel).
Proof.
  intros Hstop Hsleep. unfold checkPaused.
  apply emitting_bind; [apply emitting_get |].
  intros []; [| intros w a w' H; inversion H; subst; apply emits_refl].
  apply emitting_bind; [apply emitting_setWheelSpeeds; exact Hstop |].
  intros _. apply emitting_while, emitting_sleep, Hsleep.
Qed.

Lemma emitting_ensureDiscreteInterface ok func :
  emitting ok (ensureDiscreteInterface func).
Proof.
  intros w a w' H. apply ensureDiscreteInterface_Returned in H as [_ ->].
  apply emits_refl.
Qed.

Lemma emitting_turnRight fuel : emitting spinsInPlace (turnRight fuel).
Proof.
  unfold turnRight, ENSURE_DISCRETE_INTERFACE.
  apply emitting_bind; [apply emitting_ensureDiscreteInterface | intros _].
  apply emitting_bind; [apply emitting_get | intros t].
  apply emitting_bind; [apply emitting_get | intros r].
  apply emitting_bind; [apply emitting_get | intros h].
  apply emitting_bind.
  - apply emitting_while. unfold spinRight.
    apply emitting_bind; [apply emitting_checkPaused; reflexivity | intros _].
    apply emitting_bind; [apply emitting_get | intros speed].
    apply emitting_bind;
      [apply emitting_setWheelSpeeds, Qeq_bool_refl_true
      | intros _; apply emitting_sleep; reflexivity].
  - intros _. apply emitting_bind;
      [apply emitting_setWheelSpeeds; reflexivity
      | intros _; apply emitting_teleport; reflexivity].
Qed.

Lemma emitting_turnLeft fuel : emitting spinsInPlace (turnLeft fuel).
Proof.
  unfold turnLeft, ENSURE_DISCRETE_INTERFACE.
  apply emitting_bind; [apply emitting_ensureDiscreteInterface | intros _].
  apply emitting_bind; [apply emitting_get | intros t].
  apply emitting_bind; [apply emitting_get | intros r].
  apply emitting_bind; [apply emitting_get | intros h].
  apply emitting_bind.
  - apply emitting_while. unfold spinLeft.
    apply emitting_bind; [apply emitting_checkPaused; reflexivity | intros _].
    apply emitting_bind; [apply emitting_get | intros speed].
    apply emitting_bind;
      [apply emitting_setWheelSpeeds, Qeq_bool_refl_true
      | intros _; apply emitting_sleep; reflexivity].
  - intros _. apply emitting_bind;
      [apply emitting_setWheelSpeeds; reflexivity
      | intros _; apply emitting_teleport; reflexivity].
Qed.

Lemma emitting_moveForward fuel : emitting drivesStraight (moveForward fuel).
Proof.
  unfold moveForward, ENSURE_DISCRETE_INTERFACE.
  apply emitting_bind; [apply emitting_ensureDiscreteInterface | intros _].
  apply emitting_bind.
  - intros w b w' H. apply wallFront_Returned in H as (_ & _ & _ & _ & Ht).
    apply emits_same_trace. exact Ht.
  - intros [].
    + apply emitting_bind; [apply emitting_get |].
      intros c w a w' H. apply emits_same_trace.
      destruct c; inversion H; subst; reflexivity.
    + apply emitting_bind; [apply emitting_get | intros cell].
      apply emitting_bind; [apply emitting_get | intros initial].
      apply emitting_bind; [apply emitting_get | intros heading].
      destruct (moveForward_case heading _) as [[destination rotation] moving].
      apply emitting_bind.
      * apply emitting_while. unfold driveForward.
        apply emitting_bind; [apply emitting_checkPaused; reflexivity | intros _].
        apply emitting_bind; [apply emitting_get | intros speed].
        apply emitting_bind;
          [apply emitting_setWheelSpeeds; simpl; apply Qeq_bool_refl_true
          | intros _; apply emitting_sleep; reflexivity].
      * intros _. apply emitting_bind;
          [apply emitting_setWheelSpeeds; reflexivity
          | intros _; apply emitting_teleport; reflexivity].
Qed.

(** X19: every wheel command a [moveForward] sends has the two wheels
    turning against each other at one speed, and every wheel command a
    turn sends has them turning alike at one speed (both standing still
    included): a move never spins the mouse and a turn never drives
    it. *)
Theorem wheel_commands_match_the_motion (fuel : nat) (t : Turn) (w w' : World) :
  (moveForward fuel w = Returned tt w' ->
   exists es, trace w' = (trace w ++ es)%list /\ forallb drivesStraight es = true) /\
  (turn fuel t w = Returned tt w' ->
   exists es, trace w' = (trace w ++ es)%list /\ forallb spinsInPlace es = true).
Proof.
  split.
  - apply emitting_moveForward.
  - destruct t; simpl.
    + apply emitting_turnRight.
    + apply emitting_turnLeft.
    + unfold turnAround, ENSURE_DISCRETE_INTERFACE.
      apply (emitting_bind _ _ _ (emitting_ensureDiscreteInterface _ _)).
      intros _. apply emitting_bind; [apply emitting_turnRight |].
      intros _. apply emitting_turnRight.
Qed.

End MouseInterface.

Lemma mode_mismatch_is_fatal_witness :
  interfaceType (sim (Demo.world CONTINUOUS 0 0 0)) <> requiredInterface OpMoveForward /\
  call Demo.P Demo.maze Demo.CHAR_TO_DIRECTION Demo.DIRECTION_TO_CHAR Demo.simulate
       Demo.readElapsed Demo.to_string_double 5 OpMoveForward (Demo.world CONTINUOUS 0 0 0)
  = Stopped QUIT
      (with_printed
         ["Error: You must declare the interface type to be sim::InterfaceType::DISCRETE to use MouseInterface::moveForward()."]
         (Demo.world CONTINUOUS 0 0 0)).
Proof.
  split; [discriminate |].
  apply (mode_mismatch_is_fatal Demo.P Demo.maze Demo.CHAR_TO_DIRECTION
           Demo.DIRECTION_TO_CHAR Demo.simulate Demo.readElapsed Demo.to_string_double
           5 OpMoveForward (Demo.world CONTINUOUS 0 0 0)).
  discriminate.
Defined.

Lemma moveForward_into_wall_witness :
  exists w0 w1 w2,
    wallFront Demo.P Demo.maze Demo.CHAR_TO_DIRECTION Demo.DIRECTION_TO_CHAR
      (Demo.world DISCRETE 0 0 180) = Returned true w0 /\
    moveForward Demo.P Demo.maze Demo.CHAR_TO_DIRECTION Demo.DIRECTION_TO_CHAR
      Demo.simulate 5 (Demo.world DISCRETE 0 0 180) = Returned tt w1 /\
    crashed (sim w1) = true /\
    mouse w1 = Demo.mouseAt 0 0 180 /\
    moveForward Demo.P Demo.maze Demo.CHAR_TO_DIRECTION Demo.DIRECTION_TO_CHAR
      Demo.simulate 5 w1 = Returned tt w2 /\
    crashed (sim w2) = true /\
    mouse w2 = Demo.mouseAt 0 0 180.
Proof.
  destruct (wallFront Demo.P Demo.maze Demo.CHAR_TO_DIRECTION Demo.DIRECTION_TO_CHAR
              (Demo.world DISCRETE 0 0 180)) as [b w0 | |] eqn:Hfront;
    [| vm_compute in Hfront; discriminate ..].
  assert (Hb : b = true).
  { apply (f_equal (fun o => match o with Returned b _ => b | _ => false end)) in Hfront.
    vm_compute in Hfront. congruence. }
  subst b.
  destruct (moveForward_into_wall Demo.P Demo.maze Demo.CHAR_TO_DIRECTION
              Demo.DIRECTION_TO_CHAR Demo.simulate 5 (Demo.world DISCRETE 0 0 180) w0
              Hfront) as (w1 & w2 & H1 & H2 & H3 & _ & H4 & H5 & H6 & _).
  exists w0, w1, w2. auto 10.
Defined.

Lemma input_button_round_trip_witness :
  (exists w',
     acknowledgeInputButtonPressed 3 (Demo.world DISCRETE 0 0 0) = Returned tt w' /\
     StateModel.inputButtonWasPressed 3 (sim w') = false /\
     inputButtonPressed 3 w' = Returned false w') /\
  (exists w1 w2,
     inputButtonPressed 12 (Demo.world DISCRETE 0 0 0) = Returned false w1 /\
     acknowledgeInputButtonPressed 12 (Demo.world DISCRETE 0 0 0) = Returned tt w2 /\
     sim w1 = Demo.state DISCRETE /\ sim w2 = Demo.state DISCRETE).
Proof.
  split.
  - apply (proj1 (input_button_round_trip 3 (Demo.world DISCRETE 0 0 0))). lia.
  - destruct (proj2 (input_button_round_trip 12 (Demo.world DISCRETE 0 0 0)))
      as (w1 & w2 & H1 & H2 & H3 & H4 & _); [lia |].
    exists w1, w2. auto.
Defined.

Lemma turnAround_is_two_turnRight_witness :
  turnAround Demo.P Demo.simulate 10 (Demo.world DISCRETE 1 1 0)
  = bind (turnRight Demo.P Demo.simulate 10) (fun _ => turnRight Demo.P Demo.simulate 10)
      (Demo.world DISCRETE 1 1 0).
Proof.
  apply (turnAround_is_two_turnRight Demo.P Demo.simulate 10 (Demo.world DISCRETE 1 1 0)).
  reflexivity.
Defined.

Lemma both_wall_halves_witness :
  exists wd wu,
    declareWall Demo.P Demo.maze Demo.CHAR_TO_DIRECTION 1 1 "n" true
      (Demo.world DISCRETE 0 0 0) = Returned tt wd /\
    undeclareWall Demo.P Demo.maze Demo.CHAR_TO_DIRECTION 1 1 "n" wd = Returned tt wu /\
    g_declaredWalls (graphic wd) !! (1, 1, NORTH) = Some true /\
    g_declaredWalls (graphic wd) !! (1, 2, SOUTH) = Some true /\
    g_declaredWalls (graphic wu) !! (1, 1, NORTH) = None /\
    g_declaredWalls (graphic wu) !! (1, 2, SOUTH) = None.
Proof.
  destruct (both_wall_halves Demo.P Demo.maze Demo.CHAR_TO_DIRECTION 1 1 "n" NORTH true
              (Demo.world DISCRETE 0 0 0))
    as (wd & _ & Hd & _ & _ & _ & Hd1 & _ & Hd2 & _);
    [reflexivity | reflexivity | reflexivity |].
  destruct (both_wall_halves Demo.P Demo.maze Demo.CHAR_TO_DIRECTION 1 1 "n" NORTH true wd)
    as (_ & wu & _ & Hu & _ & _ & _ & Hu1 & _ & Hu2);
    [reflexivity | reflexivity | reflexivity |].
  exists wd, wu. auto 10.
Defined.



Lemma teleport_only_after_stop_witness :
  exists w' es,
    run Demo.P Demo.maze Demo.CHAR_TO_DIRECTION Demo.DIRECTION_TO_CHAR Demo.simulate
      10 MoveForward (Demo.world DISCRETE 0 0 0) = Returned tt w' /\
    trace w' = es /\
    teleportsAtRest 0 0 es = true.
Proof.
  destruct (run Demo.P Demo.maze Demo.CHAR_TO_DIRECTION Demo.DIRECTION_TO_CHAR
              Demo.simulate 10 MoveForward (Demo.world DISCRETE 0 0 0))
    as [[] w' | |] eqn:Hrun; [| vm_compute in Hrun; discriminate ..].
  destruct (teleport_only_after_stop Demo.P Demo.maze Demo.CHAR_TO_DIRECTION
              Demo.DIRECTION_TO_CHAR Demo.simulate 10 MoveForward
              (Demo.world DISCRETE 0 0 0) w' Hrun) as (es & Ht & Hrest & _).
  exists w', es. auto.
Defined.

Lemma moveForward_round_trip_witness :
  exists w',
    moveForward Demo.P Demo.maze Demo.CHAR_TO_DIRECTION Demo.DIRECTION_TO_CHAR
      Demo.simulate 10 (Demo.world DISCRETE 0 0 270) = Returned tt w' /\
    discretizedTranslation Demo.P w' = (1, 0) /\
    discretizedRotation w' = EAST.
Proof.
  destruct (wallFront Demo.P Demo.maze Demo.CHAR_TO_DIRECTION Demo.DIRECTION_TO_CHAR
              (Demo.world DISCRETE 0 0 270)) as [b w0 | |] eqn:Hfront;
    [| vm_compute in Hfront; discriminate ..].
  assert (Hb : b = false).
  { apply (f_equal (fun o => match o with Returned b _ => b | _ => true end)) in Hfront.
    vm_compute in Hfront. congruence. }
  subst b.
  destruct (moveForward Demo.P Demo.maze Demo.CHAR_TO_DIRECTION Demo.DIRECTION_TO_CHAR
              Demo.simulate 10 (Demo.world DISCRETE 0 0 270))
    as [[] w' | |] eqn:Hrun; [| vm_compute in Hrun; discriminate ..].
  destruct (moveForward_round_trip Demo.P Demo.maze Demo.CHAR_TO_DIRECTION
              Demo.DIRECTION_TO_CHAR Demo.simulate 10 (Demo.world DISCRETE 0 0 270) w0 w')
    as (Hcell & Hheading & _).
  - reflexivity.
  - repeat split; vm_compute; first [reflexivity | discriminate].
  - exact Hfront.
  - exact Hrun.
  - exists w'. split; [reflexivity |]. split; [exact Hcell | exact Hheading].
Defined.

Lemma turn_teleports_a_quarter_turn_witness :
  exists w',
    turnRight Demo.P Demo.simulate 10 (Demo.world DISCRETE 1 1 0) = Returned tt w' /\
    m_currentTranslation (mouse w') = m_currentTranslation (Demo.mouseAt 1 1 0) /\
    (m_currentRotation (mouse w') == 270)%Q /\
    discretizedRotation w' = EAST.
Proof.
  destruct (turnRight Demo.P Demo.simulate 10 (Demo.world DISCRETE 1 1 0))
    as [[] w' | |] eqn:Hrun; [| vm_compute in Hrun; discriminate ..].
  destruct (proj1 (turn_teleports_a_quarter_turn Demo.P Demo.maze Demo.CHAR_TO_DIRECTION
                     Demo.DIRECTION_TO_CHAR Demo.simulate 10
                     (Demo.world DISCRETE 1 1 0) w') Hrun) as (Hpos & _ & Hcanon).
  destruct Hcanon as [Hrot Hheading]; [reflexivity |].
  exists w'. auto.
Defined.

(** C4 as worded fails from a pose that is off the grid of headings: a
    mouse turned 10 degrees from NORTH ends a right turn at 280 degrees,
    not at the 270 degrees of EAST. *)
Lemma turnsReachCanonicalAngle_fails :
  ~ turnsReachCanonicalAngle Demo.P Demo.simulate.
Proof.
  intros Hclaim.
  assert (Hval : match turnRight Demo.P Demo.simulate 10 (Demo.world DISCRETE 1 1 10) with
                 | Returned _ x => m_currentRotation (mouse x)
                 | _ => 0%Q
                 end = 280%Q) by (vm_compute; reflexivity).
  destruct (turnRight Demo.P Demo.simulate 10 (Demo.world DISCRETE 1 1 10))
    as [[] w' | |] eqn:Hrun; [| discriminate Hval ..].
  destruct (proj1 (Hclaim 10%nat (Demo.world DISCRETE 1 1 10) w') Hrun) as [Hrot _].
  rewrite Hval in Hrot. vm_compute in Hrot. discriminate.
Qed.

(** ** The further properties on the concrete simulation *)

Lemma tile_color_round_trip_witness :
  exists w1 w2,
    setTileColor false Demo.maze Demo.CHAR_TO_COLOR 1 1 "r" (Demo.world DISCRETE 0 0 0) = Returned tt w1 /\
    g_tileColor (graphic w1) !! (1, 1) = Some 3%N /\
    clearTileColor Demo.P false Demo.maze Demo.STRING_TO_COLOR 1 1 w1 = Returned tt w2 /\
    g_tileColor (graphic w2) !! (1, 1) = Some 0%N.
Proof.
  destruct (tile_color_round_trip Demo.P false Demo.maze Demo.CHAR_TO_COLOR Demo.STRING_TO_COLOR 1 1 "r" 3%N 0%N (Demo.world DISCRETE 0 0 0))
    as (w1 & w2 & H1 & _ & H2 & H3 & _ & H4 & _);
    [reflexivity | reflexivity | reflexivity |].
  exists w1, w2. auto.
Defined.

Lemma unmapped_base_color_witness :
  clearTileColor Demo.P false Demo.maze ∅ 1 1 (Demo.world DISCRETE 0 0 0) = Stopped OUT_OF_RANGE (Demo.world DISCRETE 0 0 0) /\
  clearAllTileColor Demo.P ∅ (Demo.world DISCRETE 0 0 0) = Returned tt (Demo.world DISCRETE 0 0 0).
Proof.
  destruct (unmapped_base_color Demo.P false Demo.maze ∅ 1 1 (Demo.world DISCRETE 0 0 0)) as (H1 & _ & H3);
    [reflexivity |].
  split; [apply H1 | apply H3]; reflexivity.
Defined.

Lemma clearAllTileColor_clears_witness :
  exists w',
    clearAllTileColor Demo.P Demo.STRING_TO_COLOR
      (with_tilesWithColor {[(1, 1)]} (Demo.world DISCRETE 0 0 0)) = Returned tt w' /\
    m_tilesWithColor w' = ∅ /\
    g_tileColor (graphic w') !! (1, 1) = Some 0%N.
Proof.
  destruct (clearAllTileColor_clears Demo.P Demo.STRING_TO_COLOR 0%N
              (with_tilesWithColor {[(1, 1)]} (Demo.world DISCRETE 0 0 0)))
    as (w' & H1 & H2 & H3 & _); [reflexivity |].
  exists w'. split; [exact H1 |]. split; [exact H2 |].
  apply H3. simpl. apply elem_of_singleton. reflexivity.
Defined.

Lemma colored_tiles_stay_in_maze_witness :
  coloredTilesInMaze Demo.maze
    (Demo.after (colorCall Demo.P false Demo.maze Demo.CHAR_TO_COLOR Demo.STRING_TO_COLOR (CSetTileColor 1 1 "r") (Demo.world DISCRETE 0 0 0)) (Demo.world DISCRETE 0 0 0)).
Proof.
  apply (colored_tiles_stay_in_maze Demo.P false Demo.maze Demo.CHAR_TO_COLOR Demo.STRING_TO_COLOR (CSetTileColor 1 1 "r") (Demo.world DISCRETE 0 0 0)).
  - intros p Hp. simpl in Hp. apply elem_of_empty in Hp as [].
  - vm_compute. reflexivity.
Defined.

Lemma annotation_writes_its_own_overlay_witness :
  g_tileColor (graphic (Demo.after (annotate Demo.P false Demo.maze Demo.CHAR_TO_COLOR Demo.STRING_TO_COLOR Demo.CHAR_TO_DIRECTION (ADeclareWall 1 1 "n" true) (Demo.world DISCRETE 0 0 0)) (Demo.world DISCRETE 0 0 0)))
  = g_tileColor (graphic (Demo.world DISCRETE 0 0 0)).
Proof.
  apply (annotation_writes_its_own_overlay Demo.P false Demo.maze Demo.CHAR_TO_COLOR Demo.STRING_TO_COLOR Demo.CHAR_TO_DIRECTION (ADeclareWall 1 1 "n" true) (Demo.world DISCRETE 0 0 0)).
  - vm_compute. reflexivity.
  - discriminate.
Defined.

Lemma getOpposingWall_involution_witness :
  (exists x' y' d',
     getOpposingWall Demo.maze 1 1 NORTH (Demo.world DISCRETE 0 0 0) = Returned (x', y', d') (Demo.world DISCRETE 0 0 0) /\
     getOpposingWall Demo.maze x' y' d' (Demo.world DISCRETE 0 0 0) = Returned (1, 1, NORTH) (Demo.world DISCRETE 0 0 0)) /\
  getOpposingWall Demo.maze 1 2 NORTH (Demo.world DISCRETE 0 0 0) = Stopped ASSERT_FAILED (Demo.world DISCRETE 0 0 0).
Proof.
  split.
  - destruct (proj1 (getOpposingWall_involution Demo.maze 1 1 NORTH (Demo.world DISCRETE 0 0 0)))
      as (x' & y' & d' & H1 & _ & _ & H2); [reflexivity | reflexivity |].
    exists x', y', d'. auto.
  - apply (proj2 (getOpposingWall_involution Demo.maze 1 2 NORTH (Demo.world DISCRETE 0 0 0))). reflexivity.
Defined.

Lemma wall_from_either_side_witness :
  declareWall Demo.P Demo.maze Demo.CHAR_TO_DIRECTION 1 1 "n" true (Demo.world DISCRETE 0 0 0)
  = declareWall Demo.P Demo.maze Demo.CHAR_TO_DIRECTION 1 2 "s" true (Demo.world DISCRETE 0 0 0).
Proof.
  apply (wall_from_either_side Demo.P Demo.maze Demo.CHAR_TO_DIRECTION 1 1 "n" "s" NORTH
           true (Demo.world DISCRETE 0 0 0)); reflexivity.
Defined.

Lemma wall_query_reads_the_maze_witness :
  g_declaredWalls
    (graphic (Demo.after (wallQuery Demo.P Demo.maze Demo.CHAR_TO_DIRECTION Demo.DIRECTION_TO_CHAR QFront (Demo.world DISCRETE 0 0 180))
                (Demo.world DISCRETE 0 0 180)))
    !! (0, 0, SOUTH) = Some true.
Proof.
  destruct (wall_query_reads_the_maze Demo.P Demo.maze Demo.CHAR_TO_DIRECTION Demo.DIRECTION_TO_CHAR QFront (Demo.world DISCRETE 0 0 180)
              (Demo.after (wallQuery Demo.P Demo.maze Demo.CHAR_TO_DIRECTION Demo.DIRECTION_TO_CHAR QFront (Demo.world DISCRETE 0 0 180))
                 (Demo.world DISCRETE 0 0 180)) true)
    as (_ & _ & _ & _ & _ & H); [vm_compute; reflexivity |].
  apply (H eq_refl "s"%char); reflexivity.
Defined.

Lemma wall_query_outside_maze_witness :
  wallQuery Demo.P Demo.maze Demo.CHAR_TO_DIRECTION Demo.DIRECTION_TO_CHAR QLeft (Demo.world DISCRETE 5 0 0)
  = Stopped ASSERT_FAILED (Demo.world DISCRETE 5 0 0) /\
  moveForward Demo.P Demo.maze Demo.CHAR_TO_DIRECTION Demo.DIRECTION_TO_CHAR Demo.simulate 10 (Demo.world DISCRETE 5 0 0)
  = Stopped ASSERT_FAILED (Demo.world DISCRETE 5 0 0).
Proof.
  apply (wall_query_outside_maze Demo.P Demo.maze Demo.CHAR_TO_DIRECTION Demo.DIRECTION_TO_CHAR Demo.simulate QLeft 10 (Demo.world DISCRETE 5 0 0)); reflexivity.
Defined.

Lemma checkPaused_waits_witness :
  paused (sim (Demo.after (checkPaused Demo.P Demo.resume 5
                             (with_sim (Demo.pausedState DISCRETE) (Demo.world DISCRETE 0 0 0))) (Demo.world DISCRETE 0 0 0))) = false /\
  exists n,
    trace (Demo.after (checkPaused Demo.P Demo.resume 5
                         (with_sim (Demo.pausedState DISCRETE) (Demo.world DISCRETE 0 0 0))) (Demo.world DISCRETE 0 0 0))
    = CmdSetWheelSpeeds 0 0 :: repeat (EvSleep (Milliseconds (minSleepDuration Demo.P))) n.
Proof.
  destruct (checkPaused_waits Demo.P Demo.resume 5
              (with_sim (Demo.pausedState DISCRETE) (Demo.world DISCRETE 0 0 0))
              (Demo.after (checkPaused Demo.P Demo.resume 5
                             (with_sim (Demo.pausedState DISCRETE) (Demo.world DISCRETE 0 0 0))) (Demo.world DISCRETE 0 0 0)))
    as (H1 & _ & H3); [vm_compute; reflexivity |].
  split; [exact H1 |]. apply H3. reflexivity.
Defined.

Lemma read_sensor_witness :
  exists w',
    read Demo.P Demo.simulate Demo.readElapsed Demo.to_string_double "front"
      (Demo.world CONTINUOUS 0 0 0) = Returned (1 # 2) w' /\
    printed w' = [].
Proof.
  pose proof (read_sensor Demo.P Demo.simulate Demo.readElapsed Demo.to_string_double
                "front" (Demo.world CONTINUOUS 0 0 0) eq_refl) as H.
  assert (Hs : m_sensors (mouse (Demo.world CONTINUOUS 0 0 0)) !! "front"
               = Some {| sensorReading := 1 # 2; sensorReadDuration := 1 # 100 |})
    by reflexivity.
  rewrite Hs in H. destruct H as (w' & H1 & _ & _ & H4).
  exists w'. split; [exact H1 | exact H4].
Defined.

Lemma rotation_stays_wrapped_witness :
  wrapped (m_currentRotation
             (mouse (Demo.after (run Demo.P Demo.maze Demo.CHAR_TO_DIRECTION Demo.DIRECTION_TO_CHAR Demo.simulate 10 TurnRight (Demo.world DISCRETE 1 1 0))
                       (Demo.world DISCRETE 1 1 0)))).
Proof.
  apply (proj1 (rotation_stays_wrapped Demo.P Demo.maze Demo.CHAR_TO_DIRECTION Demo.DIRECTION_TO_CHAR Demo.simulate 10 TurnRight (Demo.world DISCRETE 1 1 0)
                  (Demo.after (run Demo.P Demo.maze Demo.CHAR_TO_DIRECTION Demo.DIRECTION_TO_CHAR Demo.simulate 10 TurnRight (Demo.world DISCRETE 1 1 0))
                     (Demo.world DISCRETE 1 1 0))
                  (conj (Qle_refl 0) eq_refl))).
  vm_compute. reflexivity.
Defined.

Lemma turn_there_and_back_witness :
  (m_currentRotation
     (mouse (Demo.after
               (turnLeft Demo.P Demo.simulate 10
                  (Demo.after (turnRight Demo.P Demo.simulate 10 (Demo.world DISCRETE 1 1 10))
                     (Demo.world DISCRETE 1 1 10)))
               (Demo.world DISCRETE 1 1 10))) == 10)%Q.
Proof.
  apply (turn_there_and_back Demo.P Demo.maze Demo.CHAR_TO_DIRECTION Demo.DIRECTION_TO_CHAR Demo.simulate 10 10 (Demo.world DISCRETE 1 1 10)
           (Demo.after (turnRight Demo.P Demo.simulate 10 (Demo.world DISCRETE 1 1 10))
              (Demo.world DISCRETE 1 1 10))).
  - split; vm_compute; [discriminate | reflexivity].
  - left. split; vm_compute; reflexivity.
Defined.

Lemma moveForward_stays_in_maze_witness :
  withinMaze Demo.maze
    (fst (discretizedTranslation Demo.P (Demo.after (moveForward Demo.P Demo.maze Demo.CHAR_TO_DIRECTION Demo.DIRECTION_TO_CHAR Demo.simulate 10 (Demo.world DISCRETE 0 0 0)) (Demo.world DISCRETE 0 0 0))))
    (snd (discretizedTranslation Demo.P (Demo.after (moveForward Demo.P Demo.maze Demo.CHAR_TO_DIRECTION Demo.DIRECTION_TO_CHAR Demo.simulate 10 (Demo.world DISCRETE 0 0 0)) (Demo.world DISCRETE 0 0 0)))) = true.
Proof.
  apply (moveForward_stays_in_maze Demo.P Demo.maze Demo.CHAR_TO_DIRECTION Demo.DIRECTION_TO_CHAR Demo.simulate 10 (Demo.world DISCRETE 0 0 0) (Demo.after (moveForward Demo.P Demo.maze Demo.CHAR_TO_DIRECTION Demo.DIRECTION_TO_CHAR Demo.simulate 10 (Demo.world DISCRETE 0 0 0)) (Demo.world DISCRETE 0 0 0))).
  - intros x y Hin. unfold withinMaze in Hin. simpl in *.
    repeat split; intros ->; reflexivity.
  - reflexivity.
  - repeat split; vm_compute; first [reflexivity | discriminate].
  - vm_compute. reflexivity.
Defined.

Lemma turnAround_reverses_witness :
  discretizedRotation (Demo.after (turnAround Demo.P Demo.simulate 10 (Demo.world DISCRETE 1 1 0))
                         (Demo.world DISCRETE 1 1 0)) = SOUTH.
Proof.
  apply (turnAround_reverses Demo.P Demo.maze Demo.CHAR_TO_DIRECTION Demo.DIRECTION_TO_CHAR Demo.simulate 10 10 (Demo.world DISCRETE 1 1 0)
           (Demo.after (turnAround Demo.P Demo.simulate 10 (Demo.world DISCRETE 1 1 0))
              (Demo.world DISCRETE 1 1 0)) (Demo.world DISCRETE 1 1 0)).
  - vm_compute. reflexivity.
  - reflexivity.
Defined.

Lemma forward_and_back_witness :
  discretizedTranslation Demo.P
    (Demo.after
       (moveForward Demo.P Demo.maze Demo.CHAR_TO_DIRECTION Demo.DIRECTION_TO_CHAR Demo.simulate 10
          (Demo.after (turnAround Demo.P Demo.simulate 10 (Demo.after (moveForward Demo.P Demo.maze Demo.CHAR_TO_DIRECTION Demo.DIRECTION_TO_CHAR Demo.simulate 10 (Demo.world DISCRETE 0 0 0)) (Demo.world DISCRETE 0 0 0))) (Demo.world DISCRETE 0 0 0)))
       (Demo.world DISCRETE 0 0 0))
  = (0, 0).
Proof.
  apply (forward_and_back Demo.P Demo.maze Demo.CHAR_TO_DIRECTION Demo.DIRECTION_TO_CHAR Demo.simulate 10 (Demo.world DISCRETE 0 0 0)
           (Demo.after (moveForward Demo.P Demo.maze Demo.CHAR_TO_DIRECTION Demo.DIRECTION_TO_CHAR Demo.simulate 10 (Demo.world DISCRETE 0 0 0)) (Demo.world DISCRETE 0 0 0))
           (Demo.after (turnAround Demo.P Demo.simulate 10 (Demo.after (moveForward Demo.P Demo.maze Demo.CHAR_TO_DIRECTION Demo.DIRECTION_TO_CHAR Demo.simulate 10 (Demo.world DISCRETE 0 0 0)) (Demo.world DISCRETE 0 0 0))) (Demo.world DISCRETE 0 0 0))).
  - reflexivity.
  - repeat split; vm_compute; first [reflexivity | discriminate].
  - repeat split; vm_compute; first [reflexivity | discriminate].
  - vm_compute. reflexivity.
  - vm_compute. reflexivity.
  - vm_compute. reflexivity.
  - vm_compute. reflexivity.
  - vm_compute. reflexivity.
Defined.

Lemma side_wall_is_front_wall_after_turn_witness :
  match wallQuery Demo.P Demo.maze Demo.CHAR_TO_DIRECTION Demo.DIRECTION_TO_CHAR QFront
          (Demo.after (turnLeft Demo.P Demo.simulate 10 (Demo.after (wallQuery Demo.P Demo.maze Demo.CHAR_TO_DIRECTION Demo.DIRECTION_TO_CHAR QLeft (Demo.world DISCRETE 0 0 0)) (Demo.world DISCRETE 0 0 0))) (Demo.world DISCRETE 0 0 0))
  with
  | Returned b' _ => b'
  | _ => false
  end = true.
Proof.
  apply (side_wall_is_front_wall_after_turn Demo.P Demo.maze Demo.CHAR_TO_DIRECTION Demo.DIRECTION_TO_CHAR Demo.simulate 10 (Demo.world DISCRETE 0 0 0)
           (Demo.after (wallQuery Demo.P Demo.maze Demo.CHAR_TO_DIRECTION Demo.DIRECTION_TO_CHAR QLeft (Demo.world DISCRETE 0 0 0)) (Demo.world DISCRETE 0 0 0))
           (Demo.after (turnLeft Demo.P Demo.simulate 10 (Demo.after (wallQuery Demo.P Demo.maze Demo.CHAR_TO_DIRECTION Demo.DIRECTION_TO_CHAR QLeft (Demo.world DISCRETE 0 0 0)) (Demo.world DISCRETE 0 0 0))) (Demo.world DISCRETE 0 0 0))
           (Demo.after
              (wallQuery Demo.P Demo.maze Demo.CHAR_TO_DIRECTION Demo.DIRECTION_TO_CHAR QFront
                 (Demo.after (turnLeft Demo.P Demo.simulate 10 (Demo.after (wallQuery Demo.P Demo.maze Demo.CHAR_TO_DIRECTION Demo.DIRECTION_TO_CHAR QLeft (Demo.world DISCRETE 0 0 0)) (Demo.world DISCRETE 0 0 0))) (Demo.world DISCRETE 0 0 0)))
              (Demo.world DISCRETE 0 0 0))).
  - reflexivity.
  - right. split; vm_compute; reflexivity.
  - vm_compute. reflexivity.
Defined.

Lemma turns_leave_annotations_witness :
  graphic (Demo.after (turn Demo.P Demo.simulate 10 TAround (Demo.world DISCRETE 1 1 0))
             (Demo.world DISCRETE 1 1 0)) = Demo.noGraphic.
Proof.
  apply (turns_leave_annotations Demo.P Demo.simulate 10 TAround (Demo.world DISCRETE 1 1 0)).
  vm_compute. reflexivity.
Defined.

Lemma wheel_commands_match_the_motion_witness :
  forallb drivesStraight (trace (Demo.after (moveForward Demo.P Demo.maze Demo.CHAR_TO_DIRECTION Demo.DIRECTION_TO_CHAR Demo.simulate 10 (Demo.world DISCRETE 0 0 0)) (Demo.world DISCRETE 0 0 0))) = true.
Proof.
  destruct (proj1 (wheel_commands_match_the_motion Demo.P Demo.maze Demo.CHAR_TO_DIRECTION Demo.DIRECTION_TO_CHAR Demo.simulate 10 TRight (Demo.world DISCRETE 0 0 0)
                     (Demo.after (moveForward Demo.P Demo.maze Demo.CHAR_TO_DIRECTION Demo.DIRECTION_TO_CHAR Demo.simulate 10 (Demo.world DISCRETE 0 0 0)) (Demo.world DISCRETE 0 0 0))))
    as (es & Ht & Hes); [vm_compute; reflexivity |].
  rewrite Ht. exact Hes.
Defined.
